(** * Company evaluator: the batch loop of [main.py]

    A shallow embedding of [src/main.py]: the response extractor, the batch
    analyzer, the result sink and the orchestration loop of [main], followed
    by the properties of the specification that hold of them. *)

From Stdlib Require Import QArith.
From stdpp Require Import base option list strings gmap pretty sorting.

Open Scope Z_scope.

#[local] Set Warnings "-register-all".

(** * Part I: the program *)

(** ** Text *)

(** Python strings are modelled by [string], the bytes of their UTF-8
    encoding; [s1 +:+ s2] is concatenation. A Python string may hold a
    surrogate code point on its own ([json.loads] builds one from the
    escape of a surrogate that has no partner), which UTF-8
    does not encode: it is modelled by the three bytes that
    [errors='surrogatepass'] gives it, the byte 237 followed by a byte from
    160 to 191 and one more. *)

Definition newline : string := String (Ascii.ascii_of_nat 10) "".
Definition dquote : string := String (Ascii.ascii_of_nat 34) "".

(** [strip_prefix p s] is the rest of [s] after its prefix [p]. *)
Fixpoint strip_prefix (p s : string) : option string :=
  match p, s with
  | EmptyString, _ => Some s
  | String a p', String b s' =>
      if decide (a = b) then strip_prefix p' s' else None
  | String _ _, EmptyString => None
  end.

(** [sep.join(parts)]. *)
Fixpoint join (sep : string) (parts : list string) : string :=
  match parts with
  | [] => ""
  | [p] => p
  | p :: ps => p +:+ sep +:+ join sep ps
  end.

(** A byte that continues the encoding of a character. *)
Definition is_continuation (a : Ascii.ascii) : bool :=
  (128 <=? Ascii.N_of_ascii a)%N && (Ascii.N_of_ascii a <? 192)%N.

(** The characters of a string, each as a string of length one: a
    character is a byte with the continuation bytes that follow it. *)
Fixpoint chars (s : string) : list string :=
  match s with
  | EmptyString => []
  | String a s' =>
      let cs := chars s' in
      match s' with
      | String b _ =>
          if is_continuation b then
            match cs with
            | c :: cs' => String a c :: cs'
            | [] => [String a ""]
            end
          else String a "" :: cs
      | EmptyString => String a "" :: cs
      end
  end.

(** Whether a string holds a surrogate code point. *)
Fixpoint has_surrogate (s : string) : bool :=
  match s with
  | EmptyString => false
  | String a s' =>
      match s' with
      | String b _ =>
          (Ascii.N_of_ascii a =? 237)%N
          && (160 <=? Ascii.N_of_ascii b)%N && (Ascii.N_of_ascii b <? 192)%N
          || has_surrogate s'
      | EmptyString => false
      end
  end.

(** ** Python values *)

(** The floats that are no number of their own: [json.loads] builds them
    for the literals NaN, Infinity and -Infinity (and the infinite ones for a
    number too large for a float). *)
Inductive nonfinite : Type := NaN | Infinity | NegInfinity.

(** What [json.loads] builds. [JNum] is a finite number, by its exact
    value. An object keeps its keys in the order of the text, which Python
    dicts preserve and iteration shows; a key occurs once in a dict. *)
Inductive JSON : Type :=
| JNull
| JBool (b : bool)
| JNum (q : Q)
| JFloat (x : nonfinite)
| JStr (s : string)
| JArr (items : list JSON)
| JObj (fields : list (string * JSON)).

(** The exceptions of a run, by class, with the key or a message. The
    arguments of [UnicodeEncodeError] (the text and the position) are left
    out. *)
Inductive exn : Type :=
| KeyError (key : string)
| TypeError (msg : string)
| ValueError (msg : string)
| AttributeError (msg : string)
| ZeroDivisionError
| JSONDecodeError (msg : string)
| UnicodeEncodeError
| APIError (msg : string).

Global Instance exn_ret : MRet (sum exn) := λ A a, inr a.
Global Instance exn_bind : MBind (sum exn) := λ A B f m,
  match m with
  | inl e => inl e
  | inr a => f a
  end.

(** [d.get(key)] on the fields of an object. *)
Fixpoint dict_get (key : string) (fields : list (string * JSON)) : option JSON :=
  match fields with
  | [] => None
  | (k, v) :: fields' => if decide (k = key) then Some v else dict_get key fields'
  end.

(** [bool(v)], the test of [if v:]. [None] is [JNull]. *)
Definition truthy (v : JSON) : bool :=
  match v with
  | JNull => false
  | JBool b => b
  | JNum q => negb (Qeq_bool q 0)
  | JFloat _ => true
  | JStr s => negb (bool_decide (s = ""))
  | JArr items => negb (bool_decide (length items = 0%nat))
  | JObj fields => negb (bool_decide (length fields = 0%nat))
  end.

(** [v[key]] for a string [key]. *)
Definition getitem (v : JSON) (key : string) : exn + JSON :=
  match v with
  | JObj fields =>
      match dict_get key fields with
      | Some x => inr x
      | None => inl (KeyError key)
      end
  | JArr _ => inl (TypeError "list indices must be integers or slices, not str")
  | JStr _ => inl (TypeError "string indices must be integers, not 'str'")
  | JNum _ | JFloat _ | JBool _ | JNull =>
      inl (TypeError "object is not subscriptable")
  end.

(** The elements [list.extend(v)] appends: the items of a list, the
    characters of a string, the keys of a dict. *)
Definition iterate (v : JSON) : exn + list JSON :=
  match v with
  | JArr items => inr items
  | JStr s => inr (JStr <$> chars s)
  | JObj fields => inr (JStr <$> fields.*1)
  | JNum _ | JFloat _ | JBool _ | JNull =>
      inl (TypeError "object is not iterable")
  end.

(** ** Effects *)

Inductive Format : Type := json | csv.

(** What a file holds. [JsonDoc results]: the text [json.dump] gives
    [results]. [JsonCut results]: that text up to the first string of
    [results] that cannot be encoded, where the writing stopped. [CsvDoc
    rows]: the lines the CSV writer gives [rows]. *)
Inductive file_content : Type :=
| JsonDoc (results : list JSON)
| JsonCut (results : list JSON)
| CsvDoc (rows : list (list JSON)).

(** The lines [main.py] logs, by their format string. *)
Inductive message : Type :=
| Loaded (companies : nat)
| ProcessingBatch (batch_num size : nat)
| ErrorInBatch (batch_num : nat) (e : exn)
| ResultsSaved (output_file : string)
| BatchProcessed (batch_num : nat)
| EstimatedCost (estimated_cost : Q)
| TopCompanies
| TopCompany (company_name : JSON)
| TopScore (score : JSON)
| TopExplanation (explanation : JSON)
| ErrorInMain (e : exn).

(** What a run does to the outside, in order. [WriteFile name content]: the
    file [name] is opened for writing and holds [content] when its [with]
    block is left. *)
Inductive event : Type :=
| LogInfo (m : message)
| LogError (m : message)
| Request (model system user : string) (temperature : Q)
| Sleep (seconds : Z)
| WriteFile (name : string) (content : file_content).

(** A computation: the events it caused, and the exception it raised or the
    value it returned. *)
Definition M (A : Type) : Type := list event * (exn + A).

Global Instance M_ret : MRet M := λ A a, ([], inr a).
Global Instance M_bind : MBind M := λ A B f m,
  match m with
  | (t, inl e) => (t, inl e)
  | (t, inr a) => let '(t', r) := f a in (t ++ t', r)
  end.

Definition raise {A} (e : exn) : M A := ([], inl e).
Definition emit (ev : event) : M unit := ([ev], inr ()).
Definition lift {A} (r : exn + A) : M A := ([], r).

(** [try: body except Exception as e: handler e]. *)
Definition try_except {A} (body : M A) (handler : exn → M A) : M A :=
  match body with
  | (t, inl e) => let '(t', r) := handler e in (t ++ t', r)
  | (t, inr a) => (t, inr a)
  end.

(** [for i, x in enumerate(l): st = body st i x], counting from [i]. *)
Fixpoint for_enumerate {St A} (body : St → nat → A → M St)
    (st : St) (i : nat) (l : list A) : M St :=
  match l with
  | [] => mret st
  | x :: l' => st' ← body st i x; for_enumerate body st' (S i) l'
  end.

(** [for x in l: body x]. *)
Fixpoint for_each {A} (body : A → M unit) (l : list A) : M unit :=
  match l with
  | [] => mret ()
  | x :: l' => body x;; for_each body l'
  end.

(** The content of file [name] after the events [t], if they wrote it. *)
Fixpoint persisted (name : string) (t : list event) : option file_content :=
  match t with
  | [] => None
  | ev :: t' =>
      match persisted name t' with
      | Some c => Some c
      | None =>
          match ev with
          | WriteFile name' c => if decide (name' = name) then Some c else None
          | _ => None
          end
      end
  end.

(** ** [validate_job_title] *)

Definition validate_job_title (job_title : string) : exn + string :=
  if bool_decide (job_title = "") || bool_decide (job_title = "define-your-job-here")
  then inl (ValueError "Please define a valid job title")
  else inr job_title.

(** ** [extract_json_from_response] *)

(** The two literal parts of the pattern [```json\n(.*?)\n```]. *)
Definition fence_open : string := "```json" +:+ newline.
Definition fence_close : string := newline +:+ "```".

(** The lazy group [(.*?)] followed by the closing literal, matched at the
    head of [s]: the group first tries to be empty and takes one more
    character (any character, the flag is [re.DOTALL]) each time the closing
    literal does not follow. *)
Fixpoint lazy_group (s : string) : option string :=
  match strip_prefix fence_close s with
  | Some _ => Some ""
  | None =>
      match s with
      | EmptyString => None
      | String c s' => String c <$> lazy_group s'
      end
  end.

(** The whole pattern matched at the head of [s]; the result is group 1. *)
Definition match_here (s : string) : option string :=
  strip_prefix fence_open s ≫= lazy_group.

(** [re.search]: the match at the leftmost position that has one. *)
Fixpoint re_search (s : string) : option string :=
  match match_here s with
  | Some g => Some g
  | None =>
      match s with
      | EmptyString => None
      | String _ s' => re_search s'
      end
  end.

Definition extract_json_from_response (response_text : string) : string :=
  match re_search response_text with
  | Some g => g
  | None => response_text
  end.

(** ** [rate_limit_handler] *)

(** The exact value of [(total_processed / batch_size) * 0.01], for a batch
    size other than 0; its rounding to a float and to two decimals is not
    modelled. *)
Definition estimated_cost (batch_size : Z) (total_processed : nat) : Q :=
  (inject_Z (Z.of_nat total_processed) / inject_Z batch_size * (1 # 100))%Q.

Definition rate_limit_handler (batch_size : Z) (total_processed : nat) : M unit :=
  if bool_decide (batch_size = 0) then raise ZeroDivisionError
  else
    emit (LogInfo (EstimatedCost (estimated_cost batch_size total_processed)));;
    emit (Sleep 2).

(** ** [save_results] *)

(** The file is opened with [encoding='utf-8']: a text with a surrogate
    makes the write raise [UnicodeEncodeError] (whose arguments, the text
    and the position, are not modelled). *)
Definition encodable (s : string) : bool := negb (has_surrogate s).

(** [json.dump] with [ensure_ascii=False] writes every string of a value,
    the keys of its objects included, with its characters as they are. *)
Fixpoint json_encodable (v : JSON) : bool :=
  match v with
  | JStr s => encodable s
  | JArr items => forallb json_encodable items
  | JObj fields =>
      forallb (λ '(k, x), encodable k && json_encodable x) fields
  | _ => true
  end.

Definition fieldnames : list string := ["company_name"; "score"; "explanation"].

(** [repr] of a key, for a key of letters, digits and the like, which
    Python shows as it is between single quotes. *)
Definition repr (s : string) : string := "'" +:+ s +:+ "'".

(** [csv.DictWriter._dict_to_list] with the defaults [extrasaction='raise']
    and [restval='']: a key outside [fieldnames] is an error, a missing field
    is written empty. (Python names the wrong fields in the order of a set,
    which it does not fix; here they are in the order of the record.) *)
Definition dict_to_list (rowdict : JSON) : exn + list JSON :=
  match rowdict with
  | JObj fields =>
      let wrong_fields := filter (λ k, k ∉ fieldnames) fields.*1 in
      match wrong_fields with
      | [] => inr ((λ key, default (JStr "") (dict_get key fields)) <$> fieldnames)
      | _ =>
          inl (ValueError ("dict contains fields not in fieldnames: "
                           +:+ join ", " (repr <$> wrong_fields)))
      end
  | _ => inl (AttributeError "object has no attribute 'keys'")
  end.

(** The writer gives a cell that is a string to the file as it is, and any
    other cell through [str], which shows a surrogate by its escape. *)
Definition row_encodable (row : list JSON) : bool :=
  forallb (λ cell, match cell with JStr s => encodable s | _ => true end) row.

(** [writer.writerows(results)]: the rows written, and the exception that
    stopped the writing, if any. Each record in turn is made a row and the
    row is written. *)
Fixpoint writerows (results : list JSON) : list (list JSON) * option exn :=
  match results with
  | [] => ([], None)
  | rowdict :: results' =>
      match dict_to_list rowdict with
      | inl e => ([], Some e)
      | inr row =>
          if row_encodable row then
            let '(rows, e) := writerows results' in (row :: rows, e)
          else ([], Some UnicodeEncodeError)
      end
  end.

Definition output_file (format : Format) : string :=
  match format with
  | json => "sorted_company_scores.json"
  | csv => "sorted_company_scores.csv"
  end.

Definition save_results (results : list JSON) (format : Format) : M unit :=
  match format with
  | json =>
      if forallb json_encodable results then
        emit (WriteFile (output_file json) (JsonDoc results));;
        emit (LogInfo (ResultsSaved (output_file json)))
      else
        emit (WriteFile (output_file json) (JsonCut results));;
        raise UnicodeEncodeError
  | csv =>
      let '(rows, e) := writerows results in
      emit (WriteFile (output_file csv) (CsvDoc ((JStr <$> fieldnames) :: rows)));;
      match e with
      | Some e => raise e
      | None => emit (LogInfo (ResultsSaved (output_file csv)))
      end
  end.

(** ** [sorted] by score *)

(** [sorted(l, key=..., reverse=True)] on a list decorated with its keys:
    the sort is stable, and with [reverse=True] it is descending with equal
    keys kept in the order of [l]. *)
Fixpoint insert_desc {K A} (ltb : K → K → bool) (x : K * A) (l : list (K * A))
    : list (K * A) :=
  match l with
  | [] => [x]
  | y :: l' => if ltb x.1 y.1 then y :: insert_desc ltb x l' else x :: l
  end.

Definition sort_desc {K A} (ltb : K → K → bool) (l : list (K * A)) : list (K * A) :=
  foldr (insert_desc ltb) [] l.

Definition Qltb (a b : Q) : bool := negb (Qle_bool b a).

(** The numbers Python compares with each other: the finite ones, by
    value, and the three floats that have none. *)
Inductive number : Type :=
| Finite (q : Q)
| NonFinite (x : nonfinite).

(** [a < b] on numbers: false whenever one of them is NaN. *)
Definition number_ltb (a b : number) : bool :=
  match a, b with
  | Finite p, Finite q => Qltb p q
  | NonFinite NaN, _ | _, NonFinite NaN => false
  | NonFinite NegInfinity, NonFinite NegInfinity => false
  | NonFinite NegInfinity, _ => true
  | _, NonFinite NegInfinity => false
  | NonFinite Infinity, _ => false
  | Finite _, NonFinite Infinity => true
  end.

(** Numbers compare by value, [True] and [False] as 1 and 0. *)
Definition as_number (v : JSON) : option number :=
  match v with
  | JNum q => Some (Finite q)
  | JBool b => Some (Finite (if b then 1%Q else 0%Q))
  | JFloat x => Some (NonFinite x)
  | _ => None
  end.

Definition as_string (v : JSON) : option string :=
  match v with
  | JStr s => Some s
  | _ => None
  end.

Fixpoint score_keys (l : list JSON) : exn + list JSON :=
  match l with
  | [] => inr []
  | x :: l' => k ← getitem x "score"; ks ← score_keys l'; mret (k :: ks)
  end.

(** [sorted(all_results, key=lambda x: x['score'], reverse=True)]. The keys
    are computed first; fewer than two of them are never compared. Numbers
    are ordered among themselves and strings among themselves; any other mix
    has no order in Python and raises. (Python also orders lists element by
    element: scores that are lists are outside this model, which raises on
    them too. With NaN among the keys, [<] is no order and what [sorted]
    returns depends on the comparisons it makes: the model is the insertion
    from the right, which like CPython leaves a list as it is when no key is
    less than the key after it.) *)
Definition sorted_by_score (l : list JSON) : exn + list JSON :=
  keys ← score_keys l;
  if bool_decide (length l ≤ 1)%nat then inr l
  else
    match mapM as_number keys, mapM as_string keys with
    | Some nums, _ => inr (sort_desc number_ltb (zip nums l)).*2
    | None, Some strs => inr (sort_desc String.ltb (zip strs l)).*2
    | None, None => inl (TypeError "'<' not supported between instances")
    end.

(** ** [analyze_batch] *)

(** An entity of the input file: [Dict[str, str]]. *)
Abbreviation Entity := (gmap string string).

Definition company_text (i : nat) (company : Entity) : exn + string :=
  match company !! "company" with
  | None => inl (KeyError "company")
  | Some name =>
      match company !! "about" with
      | None => inl (KeyError "about")
      | Some about =>
          inr ("Company " +:+ pretty (S i) +:+ ": " +:+ name +:+ newline +:+ about)
      end
  end.

Fixpoint company_texts (i : nat) (companies_batch : list Entity) : exn + list string :=
  match companies_batch with
  | [] => inr []
  | company :: rest =>
      t ← company_text i company; ts ← company_texts (S i) rest; mret (t :: ts)
  end.

Definition system_message (job : string) : string :=
  "You are a technical recruiter specializing in " +:+ job +:+ " positions.".

Definition prompt (job companies_text : string) : string :=
  join newline [
    "Evaluate these companies based on their mission and potential need for a "
      +:+ job +:+ ".";
    "For each company, provide a score from 0-100 and a brief explanation in French.";
    "";
    "Companies:";
    companies_text;
    "";
    "Respond in this JSON format:";
    "{";
    "    " +:+ dquote +:+ "analyses" +:+ dquote +:+ ": [";
    "        {";
    "            " +:+ dquote +:+ "company_name" +:+ dquote +:+ ": "
      +:+ dquote +:+ "<name>" +:+ dquote +:+ ",";
    "            " +:+ dquote +:+ "score" +:+ dquote +:+ ": <0-100>,";
    "            " +:+ dquote +:+ "explanation" +:+ dquote +:+ ": "
      +:+ dquote +:+ "<brief explanation in French>" +:+ dquote;
    "        },";
    "        ...";
    "    ]";
    "}"
  ].

Record Args : Type := {
  job : string;
  batch_size : Z;
  model : string;
  output_format : Format
}.

Record loop_state : Type := {
  current_batch : list Entity;
  all_results : list JSON;
  batch_num : nat
}.

Definition initial_state : loop_state :=
  {| current_batch := []; all_results := []; batch_num := 1 |}.

Section Program.

(** The completion service: the content of the first choice of the answer
    to the request of batch [batch_num], or the exception the call (or the
    access to that content) raises. The service need not answer one prompt
    the same way twice, so the answer also depends on which call it is. *)
Variable create : ∀ (batch_num : nat) (model system user : string), exn + string.

(** [json.loads]. *)
Variable json_loads : string → exn + JSON.

Definition analyze_batch (companies_batch : list Entity) (batch_num : nat)
    (job model : string) : M JSON :=
  texts ← lift (company_texts 0 companies_batch);
  let companies_text := join (newline +:+ newline) texts in
  let prompt := prompt job companies_text in
  try_except
    (emit (Request model (system_message job) prompt (7 # 10));;
     response_text ← lift (create batch_num model (system_message job) prompt);
     let json_str := extract_json_from_response response_text in
     lift (json_loads json_str))
    (λ e, emit (LogError (ErrorInBatch batch_num e));; mret JNull).

(** ** [main] *)

(** [# Rate limiting], after the [i]-th of [n] companies. *)
Definition rate_limiting (args : Args) (n i : nat) : M unit :=
  if bool_decide (Z.of_nat i < Z.of_nat n - 1)
  then rate_limit_handler (batch_size args) (i + 1)
  else mret ().

(** The body of [if len(current_batch) == args.batch_size or ...], for the
    [i]-th of [n] companies, with [current_batch] complete. *)
Definition process_batch (args : Args) (n i : nat) (st : loop_state) : M loop_state :=
  emit (LogInfo (ProcessingBatch (batch_num st) (length (current_batch st))));;
  result ← analyze_batch (current_batch st) (batch_num st) (job args) (model args);
  all_results ←
    (if truthy result then
       analyses ← lift (getitem result "analyses");
       items ← lift (iterate analyses);
       let all_results := all_results st ++ items in
       save_results all_results (output_format args);;
       emit (LogInfo (BatchProcessed (batch_num st)));;
       mret all_results
     else mret (all_results st));
  let st' := {| current_batch := []; all_results := all_results;
                batch_num := S (batch_num st) |} in
  rate_limiting args n i;;
  mret st'.

(** The body of [for i, company in enumerate(companies)]. *)
Definition loop_body (args : Args) (n : nat) (st : loop_state) (i : nat)
    (company : Entity) : M loop_state :=
  let st := {| current_batch := current_batch st ++ [company];
               all_results := all_results st; batch_num := batch_num st |} in
  if bool_decide (Z.of_nat (length (current_batch st)) = batch_size args)
     || bool_decide (Z.of_nat i = Z.of_nat n - 1)
  then process_batch args n i st
  else mret st.

(** [# Process companies]: the loop of [main]. *)
Definition process_companies (args : Args) (companies : list Entity) : M loop_state :=
  for_enumerate (loop_body args (length companies)) initial_state 0%nat companies.

(** The body of [for result in sorted_results[:10]]. *)
Definition log_result (result : JSON) : M unit :=
  company_name ← lift (getitem result "company_name");
  emit (LogInfo (TopCompany company_name));;
  score ← lift (getitem result "score");
  emit (LogInfo (TopScore score));;
  explanation ← lift (getitem result "explanation");
  emit (LogInfo (TopExplanation explanation)).

(** [# Sort and display top results]. *)
Definition sort_and_display (args : Args) (all_results : list JSON) : M unit :=
  sorted_results ← lift (sorted_by_score all_results);
  save_results sorted_results (output_format args);;
  emit (LogInfo TopCompanies);;
  for_each log_result (take 10 sorted_results).

(** [main], given what it reads: the API key of the environment, the
    parsed arguments, and the companies loaded from [f_station.json] (or
    the exception opening or parsing that file raises). *)
Definition main (api_key : option string) (args : Args)
    (file : exn + list Entity) : M unit :=
  if bool_decide (api_key = None) || bool_decide (api_key = Some "")
  then raise (ValueError "OPENAI_API_KEY not found in environment variables")
  else
    job ← lift (validate_job_title (job args));
    try_except
      (companies ← lift file;
       emit (LogInfo (Loaded (length companies)));;
       st ← process_companies args companies;
       sort_and_display args (all_results st))
      (λ e, emit (LogError (ErrorInMain e));; raise e).

End Program.

(** * Part II: the notions of the specification *)

(** ** Fenced blocks *)

(** [s] holds a JSON-marked fenced block with content [inner], after [pre]
    and before [post]. *)
Definition fenced (s pre inner post : string) : Prop :=
  s = pre +:+ fence_open +:+ inner +:+ fence_close +:+ post.

(** The first fenced block of [s]: no block of [s] opens earlier, and none
    that opens at the same place closes earlier. *)
Definition first_block (s pre inner : string) : Prop :=
  (∃ post, fenced s pre inner post) ∧
  ∀ pre' inner' post', fenced s pre' inner' post' →
    (String.length pre ≤ String.length pre')%nat ∧
    (String.length pre = String.length pre' →
     String.length inner ≤ String.length inner')%nat.

(** ** Batches *)

(** [ceil(N/B)], for [B ≥ 1]. *)
Definition batch_count (N B : nat) : nat := ((N + B - 1) `div` B)%nat.

(** The [k]-th slice of size [B], counting from 0. *)
Definition nth_batch {A} (B : nat) (l : list A) (k : nat) : list A :=
  take B (drop (k * B) l).

(** The partition of [l] into contiguous batches of size [B ≥ 1]. *)
Definition batches {A} (B : nat) (l : list A) : list (list A) :=
  nth_batch B l <$> seq 0 (batch_count (length l) B).

(** The batches of the loop for any configured size: a size below 1 is
    never reached by [len(current_batch)], and the whole list is one batch. *)
Definition batches_of {A} (batch_size : Z) (l : list A) : list (list A) :=
  if decide (1 ≤ batch_size) then batches (Z.to_nat batch_size) l
  else if decide (l = []) then [] else [l].

(** The batch view of the loop: each batch in turn is handed to
    [process_batch] with the index of its last company, [done] companies
    having been processed before. *)
Fixpoint process_batches (create : nat → string → string → string → exn + string)
    (json_loads : string → exn + JSON) (args : Args) (n : nat)
    (st : loop_state) (done : nat) (bs : list (list Entity)) : M loop_state :=
  match bs with
  | [] => mret st
  | b :: bs' =>
      st' ← process_batch create json_loads args n (done + length b - 1)
              {| current_batch := b; all_results := all_results st;
                 batch_num := batch_num st |};
      process_batches create json_loads args n st' (done + length b) bs'
  end.

(** ** Pacing *)

(** The events of a run that mark the start of a batch or pace the loop. *)
Definition is_pacing (ev : event) : bool :=
  match ev with
  | LogInfo (ProcessingBatch _ _) | LogInfo (EstimatedCost _) | Sleep _ => true
  | _ => false
  end.

(** The batches [bs], numbered from [k], started one after the other with
    [done] companies processed before them: after every batch but the last,
    the cost of the companies processed so far is logged and the loop sleeps
    for 2 seconds. *)
Fixpoint pacing_trace (batch_size : Z) (k done : nat) (bs : list (list Entity))
    : list event :=
  match bs with
  | [] => []
  | b :: bs' =>
      LogInfo (ProcessingBatch k (length b)) ::
      match bs' with
      | [] => []
      | _ => [LogInfo (EstimatedCost (estimated_cost batch_size (done + length b)));
              Sleep 2]
      end ++ pacing_trace batch_size (S k) (done + length b) bs'
  end.

(** ** Results and files *)

(** The events that write a file. *)
Definition is_write (ev : event) : bool :=
  match ev with
  | WriteFile _ _ => true
  | _ => false
  end.

Definition header : list JSON := JStr <$> fieldnames.

(** A record whose keys are among the three field names. *)
Definition three_fields (r : JSON) : Prop :=
  ∃ fields, r = JObj fields ∧ Forall (λ k, k ∈ fieldnames) fields.*1.

(** The row of a record: its name, score and explanation, a missing one
    empty. *)
Definition row_of (r : JSON) : list JSON :=
  match r with
  | JObj fields => (λ key, default (JStr "") (dict_get key fields)) <$> fieldnames
  | _ => []
  end.

(** A record the CSV writer can write: its keys are among the three field
    names and no string among its three cells holds a surrogate. *)
Definition writable (r : JSON) : Prop :=
  three_fields r ∧ row_encodable (row_of r) = true.

Global Instance three_fields_dec (r : JSON) : Decision (three_fields r).
Proof.
  refine (match r with
          | JObj fields =>
              cast_if (decide (Forall (λ k, k ∈ fieldnames) fields.*1))
          | _ => right _
          end); try (by intros (fields & ? & _)).
  - by exists fields.
  - intros (fields' & [= <-] & ?). done.
Defined.

Global Instance writable_dec (r : JSON) : Decision (writable r).
Proof. unfold writable. apply _. Defined.

(** The records at the head of a list that can be written: those before
    the first one that cannot. *)
Fixpoint writable_prefix (results : list JSON) : list JSON :=
  match results with
  | [] => []
  | r :: results' =>
      if decide (writable r) then r :: writable_prefix results' else []
  end.

(** The whole document of [results] in a format: the list itself, or the
    header and the row of every record. *)
Definition whole_document (format : Format) (results : list JSON)
    : file_content :=
  match format with
  | json => JsonDoc results
  | csv => CsvDoc (header :: (row_of <$> results))
  end.

(** The lists a format holds whole: every string can be encoded, or every
    record can be written as a row. *)
Definition storable (format : Format) (results : list JSON) : Prop :=
  match format with
  | json => forallb json_encodable results = true
  | csv => Forall writable results
  end.

Global Instance storable_dec (format : Format) (results : list JSON) :
  Decision (storable format results).
Proof. destruct format; simpl; apply _. Defined.

(** What a call of the sink for [results] leaves in the file: the whole
    document when everything can be written; otherwise the JSON text cut at
    the first string that cannot be encoded, or the header and the rows of
    the records before the first that cannot be written. *)
Definition document (format : Format) (results : list JSON) : file_content :=
  match format with
  | json =>
      if forallb json_encodable results then JsonDoc results
      else JsonCut results
  | csv => CsvDoc (header :: (row_of <$> writable_prefix results))
  end.

(** The error lines of a trace, in order. *)
Definition logged_errors (t : list event) : list message :=
  omap (λ ev, match ev with LogError m => Some m | _ => None end) t.

(** An entity with a name and a description. *)
Definition has_fields (company : Entity) : Prop :=
  is_Some (company !! "company") ∧ is_Some (company !! "about").

(** The results batch [b], numbered [k], adds to the run: the items under
    [analyses] of a truthy answer, when there is one. *)
Definition batch_results (create : nat → string → string → string → exn + string)
    (json_loads : string → exn + JSON) (args : Args) (k : nat)
    (b : list Entity) : option (list JSON) :=
  match analyze_batch create json_loads b k (job args) (model args) with
  | (_, inr result) =>
      if truthy result then
        match getitem result "analyses" ≫= iterate with
        | inr items => Some items
        | inl _ => None
        end
      else None
  | (_, inl _) => None
  end.

(** The results of the successful batches among [bs], numbered from [k], in
    order. *)
Fixpoint accumulated (create : nat → string → string → string → exn + string)
    (json_loads : string → exn + JSON) (args : Args) (k : nat)
    (bs : list (list Entity)) : list JSON :=
  match bs with
  | [] => []
  | b :: bs' =>
      default [] (batch_results create json_loads args k b)
      ++ accumulated create json_loads args (S k) bs'
  end.

(** Whether a batch among [bs], numbered from [k], has results. *)
Fixpoint any_success (create : nat → string → string → string → exn + string)
    (json_loads : string → exn + JSON) (args : Args) (k : nat)
    (bs : list (list Entity)) : bool :=
  match bs with
  | [] => false
  | b :: bs' =>
      bool_decide (is_Some (batch_results create json_loads args k b))
      || any_success create json_loads args (S k) bs'
  end.

(** ** Scores *)

Global Instance Qeq_decision : RelDecision Qeq := Qeq_dec.


(** The score of a record, when it has one that is a finite number. *)
Definition num_score (x : JSON) : option Q :=
  match getitem x "score" with
  | inr k =>
      match as_number k with
      | Some (Finite q) => Some q
      | _ => None
      end
  | inl _ => None
  end.

(** The score of a scored record (0 stands for the score of a record that has
    none). *)
Definition score_of (x : JSON) : Q := default 0%Q (num_score x).

(** A record with its score as sort key. *)
Definition decorate (x : JSON) : Q * JSON := (score_of x, x).

(** In a descending order, [x] may come before [y]: its key is not less. *)
Definition not_less {K A} (ltb : K → K → bool) (x y : K * A) : Prop :=
  ltb x.1 y.1 = false.

(** ** Example inputs *)

Definition company (name about : string) : Entity :=
  <["company" := name]> (<["about" := about]> ∅).

Definition five_companies : list Entity :=
  [company "A" "a"; company "B" "b"; company "C" "c"; company "D" "d";
   company "E" "e"].

Definition args_of (B : Z) (format : Format) : Args :=
  {| job := "data engineer"; batch_size := B; model := "gpt-4o-mini";
     output_format := format |}.

(** A text with two fenced blocks. *)
Definition two_blocks : string :=
  "Hi" +:+ fence_open +:+ "{}" +:+ fence_close +:+ " or "
       +:+ fence_open +:+ "[]" +:+ fence_close.

(** The text of a scored company as the prompt asks for it, and its value. *)
Definition quoted (s : string) : string := dquote +:+ s +:+ dquote.

Definition scored_text (name score explanation : string) : string :=
  "{" +:+ quoted "company_name" +:+ ": " +:+ quoted name +:+ ", "
      +:+ quoted "score" +:+ ": " +:+ score +:+ ", "
      +:+ quoted "explanation" +:+ ": " +:+ quoted explanation +:+ "}".

Definition scored (name : string) (score : Z) (explanation : string) : JSON :=
  JObj [("company_name", JStr name); ("score", JNum (inject_Z score));
        ("explanation", JStr explanation)].

Definition analyses_text (items : list string) : string :=
  "{" +:+ quoted "analyses" +:+ ": [" +:+ join ", " items +:+ "]}".

Definition text_AB : string :=
  analyses_text [scored_text "A" "80" "bien"; scored_text "B" "95" "top"].
Definition text_E : string := analyses_text [scored_text "E" "90" "bon"].
Definition text_results : string := "{" +:+ quoted "results" +:+ ": []}".

(** An answer with a score that is NaN, a literal [json.loads] accepts. *)
Definition scored_nan : JSON :=
  JObj [("company_name", JStr "N"); ("score", JFloat NaN);
        ("explanation", JStr "inconnu")].

Definition text_nan : string :=
  analyses_text [scored_text "A" "1" "bas"; scored_text "N" "NaN" "inconnu";
                 scored_text "B" "2" "haut"].

Definition nan_scored : list JSON :=
  [scored "A" 1 "bas"; scored_nan; scored "B" 2 "haut"].

(** A stand-in for [json.loads] that agrees with it on the texts of the
    examples, the only ones it is applied to. *)
Definition stub_json_loads (s : string) : exn + JSON :=
  if decide (s = text_AB) then
    inr (JObj [("analyses", JArr [scored "A" 80 "bien"; scored "B" 95 "top"])])
  else if decide (s = text_E) then
    inr (JObj [("analyses", JArr [scored "E" 90 "bon"])])
  else if decide (s = text_results) then inr (JObj [("results", JArr [])])
  else if decide (s = text_nan) then inr (JObj [("analyses", JArr nan_scored)])
  else if decide (s = "{}") then inr (JObj [])
  else if decide (s = "[]") then inr (JArr [])
  else if decide (s = "null") then inr JNull
  else if decide (s = "0") then inr (JNum 0)
  else inl (JSONDecodeError "Expecting value").

(** A service that is down. *)
Definition client_down (batch_num : nat) (model system user : string)
    : exn + string :=
  inl (APIError "Connection error.").

(** A service that answers every request with the same text. *)
Definition client_canned (text : string) (batch_num : nat)
    (model system user : string) : exn + string :=
  inr text.

(** A service that answers batch 1 in a fenced block, fails on batch 2, and
    answers batch 3 bare. *)
Definition client_mixed (batch_num : nat) (model system user : string)
    : exn + string :=
  match batch_num with
  | 1%nat => inr ("Voici:" +:+ newline +:+ fence_open +:+ text_AB +:+ fence_close)
  | 2%nat => inl (APIError "Rate limit reached.")
  | _ => inr text_E
  end.

(** A scored company with a fourth field. *)
Definition scored_with_url : JSON :=
  JObj [("company_name", JStr "A"); ("score", JNum 80);
        ("explanation", JStr "bien"); ("url", JStr "a.example")].

(** A list with a tie: [A] and [C] both at 80. *)
Definition three_scored : list JSON :=
  [scored "A" 80 "bien"; scored "B" 95 "top"; scored "C" 80 "bien aussi"].

(** ** Further notions *)

(** The cost lines of a trace. *)
Definition is_cost (ev : event) : bool :=
  match ev with
  | LogInfo (EstimatedCost _) => true
  | _ => false
  end.

(** A record that is a mapping with a score. *)
Definition has_score (x : JSON) : Prop := ∃ k, getitem x "score" = inr k.

(** The score of a record is a number; it is a string. *)
Definition number_scored (x : JSON) : Prop :=
  ∃ k n, getitem x "score" = inr k ∧ as_number k = Some n.
Definition string_scored (x : JSON) : Prop :=
  ∃ s, getitem x "score" = inr (JStr s).

(** The score of a record with a string for score (the empty string stands
    for the score of another record). *)
Definition text_score (x : JSON) : string :=
  match getitem x "score" with
  | inr (JStr s) => s
  | _ => ""
  end.

(** ** Runs of [main] *)

(** The requests of a trace. *)
Definition is_request (ev : event) : bool :=
  match ev with
  | Request _ _ _ _ => true
  | _ => false
  end.

(** The error line of the handler of [main]. *)
Definition is_main_error (ev : event) : bool :=
  match ev with
  | LogError (ErrorInMain _) => true
  | _ => false
  end.

(** An event that keeps to the arguments of the run: a request goes to the
    configured model, with the recruiter of the job as system message and
    temperature 0.7; a sleep lasts 2 seconds; a file written is the output
    file of the configured format. *)
Definition within_config (args : Args) (ev : event) : Prop :=
  match ev with
  | Request m s _ temperature =>
      m = model args ∧ s = system_message (job args) ∧ temperature = (7 # 10)%Q
  | Sleep seconds => seconds = 2
  | WriteFile name _ => name = output_file (output_format args)
  | _ => True
  end.

(** The request for batch [b]: the prompt lists the companies of [b],
    numbered from 1. *)
Definition request_of (args : Args) (ev : event) (b : list Entity) : Prop :=
  ∃ texts,
    company_texts 0 b = inr texts
    ∧ ev = Request (model args) (system_message (job args))
             (prompt (job args) (join (newline +:+ newline) texts)) (7 # 10).

(** The startup checks of [main] pass. *)
Definition startup_ok (api_key : option string) (args : Args) : Prop :=
  (∃ key, api_key = Some key ∧ key ≠ "")
  ∧ job args ≠ "" ∧ job args ≠ "define-your-job-here".

(** A record with the three fields of the summary. *)
Definition summarised (result : JSON) : Prop :=
  Forall (λ key, ∃ v, getitem result key = inr v) fieldnames.

(** The three summary lines of a record ([null] stands for the field of a
    record that has none). *)
Definition field (result : JSON) (key : string) : JSON :=
  match getitem result key with
  | inr v => v
  | inl _ => JNull
  end.

Definition summary (result : JSON) : list event :=
  [LogInfo (TopCompany (field result "company_name"));
   LogInfo (TopScore (field result "score"));
   LogInfo (TopExplanation (field result "explanation"))].

(** ** Pacing after a batch *)

(** The cost the loop logs: the number of companies processed so far
    divided by the batch size, times the unit cost of 0.01. *)
Definition unit_cost : Q := 1 # 100.

Definition cost_so_far (batch_size : Z) (processed : nat) : Q :=
  (inject_Z (Z.of_nat processed) / inject_Z batch_size * unit_cost)%Q.

(** The trace of a run of the loop over the batches [bs], numbered from
    [k], with [processed] companies before them. For each batch in turn:
    the start line, the request of the batch, the other events of the batch
    (no cost line and no sleep among them) and then, unless the batch is the
    last, the cost of the companies processed so far and a sleep of 2
    seconds. Nothing follows the events of the last batch. *)
Fixpoint paced (args : Args) (k processed : nat) (bs : list (list Entity))
    (t : list event) : Prop :=
  match bs with
  | [] => t = []
  | b :: bs' =>
      ∃ ev work pace rest,
        t = LogInfo (ProcessingBatch k (length b)) :: ev :: work
            ++ pace ++ rest
        ∧ request_of args ev b
        ∧ filter is_pacing work = []
        ∧ match bs' with
          | [] => pace = []
          | _ :: _ =>
              ∃ q, pace = [LogInfo (EstimatedCost q); Sleep 2]
                   ∧ (q == cost_so_far (batch_size args)
                             (processed + length b))%Q
          end
        ∧ paced args (S k) (processed + length b) bs' rest
  end.

(** * Part III: properties *)

(** ** Text *)

Module Text.

Lemma app_nil_l (s : string) : "" +:+ s = s.
Proof. reflexivity. Qed.

Lemma app_cons (c : Ascii.ascii) (s t : string) :
  String c s +:+ t = String c (s +:+ t).
Proof. reflexivity. Qed.

Lemma length_nil (s : string) : String.length s = 0%nat → s = "".
Proof. by destruct s. Qed.

(** Two splits of one text at the same position are the same split. *)
Lemma app_eq_length (a b c d : string) :
  a +:+ b = c +:+ d → String.length a = String.length c → a = c ∧ b = d.
Proof.
  revert c. induction a as [|x a IH]; intros [|y c];
    rewrite ?app_cons, ?app_nil_l; simpl; try done.
  intros [= -> H] [= Hl]. destruct (IH _ H Hl) as [-> ->]. done.
Qed.

Lemma strip_prefix_Some (p s r : string) :
  strip_prefix p s = Some r ↔ s = p +:+ r.
Proof.
  revert s. induction p as [|a p IH]; intros s;
    rewrite ?app_cons, ?app_nil_l; simpl.
  - split; congruence.
  - destruct s as [|b s]; [done|].
    case_decide as Hab; [subst b; rewrite IH|]; split; congruence.
Qed.

Lemma strip_prefix_app (p r : string) : strip_prefix p (p +:+ r) = Some r.
Proof. by apply strip_prefix_Some. Qed.

End Text.

(** ** The response extractor *)

Section Extractor.
Import Text.

Lemma lazy_group_cons (c : Ascii.ascii) (s : string) :
  lazy_group (String c s) =
    match strip_prefix fence_close (String c s) with
    | Some _ => Some ""
    | None => String c <$> lazy_group s
    end.
Proof. reflexivity. Qed.

Lemma lazy_group_None (s : string) :
  lazy_group s = None → ∀ g post, s ≠ g +:+ fence_close +:+ post.
Proof.
  induction s as [|c s IH]; intros Hs g post Heq.
  - by destruct g.
  - rewrite lazy_group_cons in Hs. destruct g as [|c' g].
    + rewrite app_nil_l in Heq. rewrite Heq, strip_prefix_app in Hs. done.
    + rewrite app_cons in Heq. injection Heq as -> Heq.
      destruct (strip_prefix _ _); [done|].
      destruct (lazy_group s) eqn:Hl; [done|]. by eapply IH.
Qed.

Lemma lazy_group_Some (s g : string) :
  lazy_group s = Some g →
  ∃ post, s = g +:+ fence_close +:+ post ∧
    ∀ g' post', s = g' +:+ fence_close +:+ post' →
      (String.length g ≤ String.length g')%nat.
Proof.
  revert g. induction s as [|c s IH]; intros g Hs.
  - done.
  - rewrite lazy_group_cons in Hs.
    destruct (strip_prefix fence_close (String c s)) as [r|] eqn:Hp.
    + injection Hs as <-. apply strip_prefix_Some in Hp.
      exists r. split; [done|]. intros; simpl; lia.
    + destruct (lazy_group s) as [g0|] eqn:Hl; [|done].
      injection Hs as <-. destruct (IH g0 eq_refl) as (post & -> & Hmin).
      exists post. split; [done|]. intros [|c' g'] post' Heq.
      * rewrite app_nil_l in Heq. by rewrite Heq, strip_prefix_app in Hp.
      * rewrite app_cons in Heq. injection Heq as -> Heq. simpl.
        apply Hmin in Heq. lia.
Qed.

Lemma match_here_cons_None (s pre inner post : string) :
  match_here s = None → fenced s pre inner post → pre ≠ "".
Proof.
  intros Hm Hf ->. unfold fenced in Hf. rewrite app_nil_l in Hf.
  unfold match_here in Hm. rewrite Hf, strip_prefix_app in Hm. simpl in Hm.
  by eapply lazy_group_None.
Qed.

Lemma re_search_cons (c : Ascii.ascii) (s : string) :
  re_search (String c s) =
    match match_here (String c s) with
    | Some g => Some g
    | None => re_search s
    end.
Proof. reflexivity. Qed.

Lemma fenced_cons (c : Ascii.ascii) (s pre inner post : string) :
  fenced (String c s) (String c pre) inner post ↔ fenced s pre inner post.
Proof. unfold fenced. rewrite app_cons. split; congruence. Qed.

Lemma fenced_cons_inv (c : Ascii.ascii) (s pre inner post : string) :
  fenced (String c s) pre inner post → pre ≠ "" →
  ∃ pre', pre = String c pre' ∧ fenced s pre' inner post.
Proof.
  destruct pre as [|c' pre]; [done|]. intros Hf _.
  unfold fenced in *. rewrite app_cons in Hf. injection Hf as -> Hf. eauto.
Qed.

Lemma re_search_None (s : string) :
  re_search s = None → ∀ pre inner post, ¬ fenced s pre inner post.
Proof.
  induction s as [|c s IH]; intros Hs pre inner post Hf.
  - simpl in Hs. destruct (match_here "") eqn:Hm; [done|].
    destruct pre; [by eapply match_here_cons_None|done].
  - rewrite re_search_cons in Hs.
    destruct (match_here (String c s)) eqn:Hm; [done|].
    destruct (fenced_cons_inv _ _ _ _ _ Hf) as (pre' & -> & Hf');
      [by eapply match_here_cons_None|].
    by eapply IH.
Qed.

Lemma match_here_first_block (s g : string) :
  match_here s = Some g → first_block s "" g.
Proof.
  unfold match_here. destruct (strip_prefix fence_open s) as [r|] eqn:Hp; [|done].
  simpl. intros (post & -> & Hmin)%lazy_group_Some.
  apply strip_prefix_Some in Hp. split; [by exists post|].
  intros pre' inner' post' Hf. split; [simpl; lia|].
  intros Hl. symmetry in Hl. apply length_nil in Hl as ->.
  unfold fenced in Hf. rewrite app_nil_l, Hp in Hf.
  apply (inj (String.app fence_open)) in Hf. eauto.
Qed.

Lemma re_search_Some (s g : string) :
  re_search s = Some g → ∃ pre, first_block s pre g.
Proof.
  revert g. induction s as [|c s IH]; intros g Hs.
  - by vm_compute in Hs.
  - rewrite re_search_cons in Hs.
    destruct (match_here (String c s)) eqn:Hm.
    { injection Hs as ->. eauto using match_here_first_block. }
    destruct (IH _ Hs) as (pre & [post Hf] & Hmin).
    exists (String c pre). split; [exists post; by apply fenced_cons|].
    intros pre' inner' post' Hf'.
    destruct (fenced_cons_inv _ _ _ _ _ Hf') as (pre'' & -> & Hf'');
      [by eapply match_here_cons_None|].
    destruct (Hmin _ _ _ Hf'') as [H1 H2]. simpl. split; [lia|].
    intros [= Hl]. auto.
Qed.

(** A text has at most one first block. *)
Lemma first_block_unique (s pre inner pre' inner' : string) :
  first_block s pre inner → first_block s pre' inner' →
  pre = pre' ∧ inner = inner'.
Proof.
  intros [[post Hf] Hmin] [[post' Hf'] Hmin'].
  destruct (Hmin _ _ _ Hf') as [H1 H2], (Hmin' _ _ _ Hf) as [H1' H2'].
  assert (String.length pre = String.length pre') as Hl by lia.
  unfold fenced in Hf, Hf'. rewrite Hf in Hf'.
  apply app_eq_length in Hf' as [-> Hr]; [|done].
  apply (inj (String.app fence_open)) in Hr.
  apply app_eq_length in Hr as [-> _]; [done|].
  specialize (H2 eq_refl). specialize (H2' eq_refl). lia.
Qed.

End Extractor.

(** C3. If a text holds a JSON-marked fenced block, the extractor returns the
    content of the first one, whatever surrounds it and whatever blocks come
    later; a text with no such block is returned unchanged. *)
Theorem extract_json_from_response_first_block (s : string) :
  (∀ pre inner, first_block s pre inner → extract_json_from_response s = inner) ∧
  ((∃ pre inner post, fenced s pre inner post) →
   ∃ pre inner, first_block s pre inner ∧ extract_json_from_response s = inner) ∧
  ((∀ pre inner post, ¬ fenced s pre inner post) →
   extract_json_from_response s = s).
Proof.
  unfold extract_json_from_response.
  destruct (re_search s) as [g|] eqn:Hs.
  - destruct (re_search_Some _ _ Hs) as [pre Hfb]. split; [|split].
    + intros pre' inner' Hfb'.
      by destruct (first_block_unique _ _ _ _ _ Hfb Hfb').
    + eauto.
    + intros Hno. destruct Hfb as [[post Hf] _]. by destruct (Hno _ _ _ Hf).
  - pose proof (re_search_None _ Hs) as Hno. split; [|split].
    + intros pre inner [[post Hf] _]. by destruct (Hno _ _ _ Hf).
    + intros (pre & inner & post & Hf). by destruct (Hno _ _ _ Hf).
    + done.
Qed.

Lemma two_blocks_first_block : first_block two_blocks "Hi" "{}".
Proof.
  destruct (re_search_Some two_blocks "{}" eq_refl) as [pre Hfb].
  assert (fenced two_blocks "Hi" "{}"
            (" or " +:+ fence_open +:+ "[]" +:+ fence_close)) as Hf by done.
  destruct Hfb as [[post Hpre] Hmin].
  destruct (Hmin _ _ _ Hf) as [Hle _].
  destruct pre as [|a [|b [|c pre]]]; simpl in Hle; try lia;
    try (vm_compute in Hpre; discriminate).
  vm_compute in Hpre. injection Hpre as <- <- _.
  split; [by eexists|done].
Qed.

Lemma extract_json_from_response_first_block_witness :
  first_block two_blocks "Hi" "{}" ∧ extract_json_from_response two_blocks = "{}".
Proof.
  split; [exact two_blocks_first_block|].
  exact (proj1 (extract_json_from_response_first_block two_blocks)
           "Hi" "{}" two_blocks_first_block).
Defined.

(** ** Computations *)

Section Computations.
Context {A B : Type}.
Implicit Types (m : M A) (f g : A → M B).

Lemma bind_ret_l (a : A) f : mret a ≫= f = f a.
Proof. unfold mbind, M_bind, mret, M_ret. by destruct (f a). Qed.

Lemma bind_lift_inr (a : A) f : lift (inr a) ≫= f = f a.
Proof. apply bind_ret_l. Qed.


Lemma bind_inr (t : list event) (a : A) f :
  ((t, inr a) : M A) ≫= f = (t ++ (f a).1, (f a).2).
Proof. unfold mbind, M_bind. by destruct (f a). Qed.

(** A continuation only matters on the values the computation returns. *)
Lemma bind_ext m f g :
  (∀ t a, m = (t, inr a) → f a = g a) → m ≫= f = m ≫= g.
Proof.
  destruct m as [t [e|a]]; intros H; [done|].
  by rewrite !bind_inr, (H t a).
Qed.

Lemma bind_inr_inv m f (t : list event) (b : B) :
  m ≫= f = (t, inr b) →
  ∃ t1 a t2, m = (t1, inr a) ∧ f a = (t2, inr b) ∧ t = t1 ++ t2.
Proof.
  destruct m as [t1 [e|a]]; [done|]. rewrite bind_inr.
  destruct (f a) as [t2 r] eqn:Hf. simpl. intros [= <- ->]. eauto 6.
Qed.

End Computations.

Lemma persisted_app (name : string) (t1 t2 : list event) :
  persisted name (t1 ++ t2) =
    match persisted name t2 with
    | Some c => Some c
    | None => persisted name t1
    end.
Proof.
  induction t1 as [|ev t1 IH]; simpl.
  - by destruct (persisted name t2).
  - rewrite IH. by destruct (persisted name t2).
Qed.

(** ** Batches *)

Section Batches.
Context {A : Type}.
Implicit Types (l b : list A) (B N k : nat).

(** [batch_count N B] is the ceiling of [N / B]. *)
Lemma batch_count_ceil N B :
  (1 ≤ B → (batch_count N B - 1) * B < N + B ∧ N ≤ batch_count N B * B
           ∧ (1 ≤ N → (batch_count N B - 1) * B < N))%nat.
Proof.
  intros HB. unfold batch_count.
  pose proof (Nat.div_mod_eq (N + B - 1) B) as Hd.
  pose proof (Nat.mod_upper_bound (N + B - 1) B) as Hm.
  nia.
Qed.

Lemma batch_count_0 B : (1 ≤ B)%nat → batch_count 0 B = 0%nat.
Proof. intros. unfold batch_count. apply Nat.div_small. lia. Qed.

Lemma batch_count_add B N :
  (1 ≤ B)%nat → batch_count (B + N) B = S (batch_count N B).
Proof.
  intros. unfold batch_count.
  replace (B + N + B - 1)%nat with (1 * B + (N + B - 1))%nat by lia.
  rewrite Nat.div_add_l by lia. done.
Qed.

Lemma batch_count_small B N :
  (1 ≤ N ≤ B)%nat → batch_count N B = 1%nat.
Proof.
  intros. unfold batch_count.
  replace (N + B - 1)%nat with (1 * B + (N - 1))%nat by lia.
  rewrite Nat.div_add_l by lia. rewrite Nat.div_small by lia. done.
Qed.

Lemma batches_nil B : (1 ≤ B)%nat → batches B (@nil A) = [].
Proof. intros. unfold batches. simpl. by rewrite batch_count_0. Qed.

Lemma batches_single B b :
  (1 ≤ length b ≤ B)%nat → batches B b = [b].
Proof.
  intros. unfold batches. rewrite batch_count_small by done. simpl.
  unfold nth_batch. rewrite Nat.mul_0_l, drop_0. by rewrite take_ge by lia.
Qed.

Lemma batches_app B b l :
  (1 ≤ B)%nat → length b = B → batches B (b ++ l) = b :: batches B l.
Proof.
  intros HB Hb. unfold batches.
  rewrite length_app, Hb, batch_count_add by done.
  rewrite <-cons_seq, fmap_cons, <-fmap_S_seq, <-list_fmap_compose.
  f_equal.
  - unfold nth_batch. rewrite Nat.mul_0_l, drop_0. by rewrite take_app_length' by done.
  - apply list_fmap_ext. intros _ k _. unfold nth_batch. simpl.
    replace (B + k * B)%nat with (length b + k * B)%nat by lia.
    by rewrite drop_app_add'.
Qed.

Lemma batches_unfold B l :
  (1 ≤ B)%nat → l ≠ [] → batches B l = take B l :: batches B (drop B l).
Proof.
  intros HB Hl. destruct (decide (length l ≤ B)%nat).
  - rewrite batches_single by (destruct l; simpl in *; [done|lia]).
    rewrite take_ge, drop_ge by lia. by rewrite batches_nil.
  - rewrite <-(take_drop B l) at 1. apply batches_app; [done|].
    rewrite length_take. lia.
Qed.

Lemma concat_batches B l : (1 ≤ B)%nat → concat (batches B l) = l.
Proof.
  intros HB. remember (length l) as N eqn:HN. revert l HN.
  induction N as [N IH] using lt_wf_ind. intros l ->.
  destruct (decide (l = [])) as [->|Hl]; [by rewrite batches_nil|].
  rewrite batches_unfold by done. simpl.
  rewrite (IH (length (drop B l))); [apply take_drop| |done].
  rewrite length_drop. destruct l; simpl in *; [done|lia].
Qed.

Lemma batches_lookup B l k b :
  batches B l !! k = Some b ↔
  (k < batch_count (length l) B)%nat ∧ b = nth_batch B l k.
Proof.
  unfold batches. rewrite list_lookup_fmap, fmap_Some. split.
  - intros (j & [-> ?]%lookup_seq & ->). done.
  - intros [? ->]. exists k. split; [|done]. by apply lookup_seq.
Qed.

Lemma batch_count_div_mod N B :
  (1 ≤ B)%nat →
  batch_count N B =
    if decide (N `mod` B = 0)%nat then (N `div` B)%nat else S (N `div` B).
Proof.
  intros HB. unfold batch_count.
  pose proof (Nat.div_mod_eq N B) as Hd.
  pose proof (Nat.mod_upper_bound N B ltac:(lia)) as Hm.
  case_decide; symmetry.
  - apply (Nat.div_unique _ _ _ (B - 1)); lia.
  - apply (Nat.div_unique _ _ _ (N `mod` B - 1)); lia.
Qed.

(** The sizes [B, ..., B, (N mod B or B)]. *)
Lemma length_nth_batch B l k :
  (1 ≤ B)%nat → (k < batch_count (length l) B)%nat →
  length (nth_batch B l k) =
    if decide (S k < batch_count (length l) B)%nat then B
    else if decide (length l `mod` B = 0)%nat then B
    else (length l `mod` B)%nat.
Proof.
  intros HB. unfold nth_batch. rewrite length_take, length_drop.
  rewrite batch_count_div_mod by done.
  pose proof (Nat.div_mod_eq (length l) B) as Hd.
  pose proof (Nat.mod_upper_bound (length l) B ltac:(lia)) as Hm.
  set (q := (length l `div` B)%nat) in *.
  set (s := (length l `mod` B)%nat) in *.
  intros Hk.
  assert (S k ≤ q → B * S k ≤ B * q)%nat as Hmono
    by (intros; apply Nat.mul_le_mono_l; lia).
  destruct (decide (s = 0%nat)) as [Hs|Hs].
  - case_decide as Hlt; [lia|].
    assert (S k = q) as <- by lia. lia.
  - case_decide as Hlt; [lia|].
    assert (k = q) as -> by lia. lia.
Qed.

Lemma batches_of_nonempty (Bz : Z) l :
  Forall (λ b, b ≠ []) (batches_of Bz l).
Proof.
  unfold batches_of. case_decide as HB.
  - apply Forall_forall. intros b [k Hb]%list_elem_of_lookup.
    apply batches_lookup in Hb as [Hk ->].
    pose proof (length_nth_batch (Z.to_nat Bz) l k ltac:(lia) Hk) as Hlen.
    intros Hnil. rewrite Hnil in Hlen. simpl in Hlen.
    pose proof (Nat.mod_upper_bound (length l) (Z.to_nat Bz)).
    repeat case_decide; lia.
  - case_decide; repeat constructor. done.
Qed.

Lemma concat_batches_of (Bz : Z) l : concat (batches_of Bz l) = l.
Proof.
  unfold batches_of. case_decide; [apply concat_batches; lia|].
  case_decide; subst; simpl; [done|by rewrite app_nil_r].
Qed.

End Batches.

(** ** The loop, batch by batch *)

Ltac bind_inv H :=
  let t1 := fresh "t" in let a := fresh "a" in
  let t2 := fresh "t" in let H1 := fresh "H" in let Ht := fresh "Ht" in
  apply bind_inr_inv in H as (t1 & a & t2 & H1 & H & Ht).

Section Loop.
Variable create : nat → string → string → string → exn + string.
Variable json_loads : string → exn + JSON.
Variable args : Args.
Variable n : nat.

Local Abbreviation step := (process_batch create json_loads args n).
Local Abbreviation body := (loop_body create json_loads args n).
Local Abbreviation steps := (process_batches create json_loads args n).

(** A processed batch leaves an empty [current_batch] and the next number. *)
Lemma process_batch_inr (i : nat) (st st' : loop_state) (t : list event) :
  step i st = (t, inr st') →
  current_batch st' = [] ∧ batch_num st' = S (batch_num st).
Proof.
  unfold process_batch. intros H.
  do 4 bind_inv H. by injection H as _ <-.
Qed.

Lemma loop_body_process (i : nat) (cb : list Entity) (all : list JSON)
    (bn : nat) (c : Entity) :
  Z.of_nat (length (cb ++ [c])) = batch_size args ∨ Z.of_nat i = Z.of_nat n - 1 →
  body {| current_batch := cb; all_results := all; batch_num := bn |} i c
  = step i
      {| current_batch := cb ++ [c]; all_results := all; batch_num := bn |}.
Proof.
  intros H. unfold loop_body. simpl.
  destruct H as [H|H].
  - by rewrite (bool_decide_eq_true_2 _ H).
  - rewrite (bool_decide_eq_true_2 _ H). by rewrite orb_true_r.
Qed.

Lemma loop_body_collect (i : nat) (cb : list Entity) (all : list JSON)
    (bn : nat) (c : Entity) :
  Z.of_nat (length (cb ++ [c])) ≠ batch_size args → Z.of_nat i ≠ Z.of_nat n - 1 →
  body {| current_batch := cb; all_results := all; batch_num := bn |} i c
  = mret {| current_batch := cb ++ [c]; all_results := all; batch_num := bn |}.
Proof.
  intros H1 H2. unfold loop_body. simpl.
  by rewrite (bool_decide_eq_false_2 _ H1), (bool_decide_eq_false_2 _ H2).
Qed.

(** With a batch size [B ≥ 1], the loop from the [i]-th company on, with
    [cb] collected so far, processes the batches of what is left. *)
Lemma loop_batches (B : nat) (l cb : list Entity) (all : list JSON) (bn i : nat) :
  batch_size args = Z.of_nat B → (1 ≤ B)%nat →
  (length cb < B)%nat → (length cb ≤ i)%nat → (i + length l)%nat = n →
  (l = [] → cb = []) →
  for_enumerate body
    {| current_batch := cb; all_results := all; batch_num := bn |} i l
  = steps
      {| current_batch := []; all_results := all; batch_num := bn |}
      (i - length cb) (batches B (cb ++ l)).
Proof.
  intros HB HB1. revert cb all bn i.
  induction l as [|c l IH]; intros cb all bn i Hcb Hi Hn Hnil.
  { rewrite (Hnil eq_refl). simpl. by rewrite batches_nil. }
  simpl in Hn. simpl for_enumerate.
  assert (length (cb ++ [c]) = S (length cb)) as Hlen
    by (rewrite length_app; simpl; lia).
  destruct (decide (length (cb ++ [c]) = B ∨ l = [])) as [Hp|Hp].
  - rewrite loop_body_process; cycle 1.
    { destruct Hp as [Hp| ->]; [left|right]; simpl in *; lia. }
    replace (cb ++ c :: l) with ((cb ++ [c]) ++ l) by by rewrite <-app_assoc.
    assert (batches B ((cb ++ [c]) ++ l) = (cb ++ [c]) :: batches B l) as ->.
    { destruct Hp as [Hp| ->]; [by apply batches_app|].
      rewrite app_nil_r, batches_nil by done. apply batches_single. lia. }
    simpl process_batches.
    replace (i - length cb + length (cb ++ [c]) - 1)%nat with i by lia.
    apply bind_ext. intros t [cb' all' bn'] [Hcb' _]%process_batch_inr.
    simpl in Hcb'. subst cb'.
    rewrite IH by (simpl; try lia; done).
    simpl. f_equal. lia.
  - rewrite loop_body_collect by (destruct l; [tauto|simpl in *; lia]).
    rewrite bind_ret_l.
    rewrite IH; [|lia..|intros ->; tauto].
    rewrite Hlen. replace (S i - S (length cb))%nat with (i - length cb)%nat by lia.
    by rewrite <-app_assoc.
Qed.

(** With a batch size below 1, the loop processes one batch at the end. *)
Lemma loop_one_batch (l cb : list Entity) (all : list JSON) (bn i : nat) :
  batch_size args ≤ 0 →
  (length cb ≤ i)%nat → (i + length l)%nat = n → l ≠ [] →
  for_enumerate body
    {| current_batch := cb; all_results := all; batch_num := bn |} i l
  = steps
      {| current_batch := []; all_results := all; batch_num := bn |}
      (i - length cb) [cb ++ l].
Proof.
  intros HB. revert cb i.
  induction l as [|c l IH]; intros cb i Hi Hn Hnil; [done|].
  simpl in Hn. simpl for_enumerate.
  assert (length (cb ++ [c]) = S (length cb)) as Hlen
    by (rewrite length_app; simpl; lia).
  destruct l as [|c' l].
  - rewrite loop_body_process by (right; simpl in *; lia).
    simpl process_batches.
    replace (i - length cb + length (cb ++ [c]) - 1)%nat with i by lia.
    by apply bind_ext.
  - rewrite loop_body_collect by (simpl in *; lia).
    rewrite bind_ret_l. rewrite IH by (simpl in *; (lia || done)).
    rewrite Hlen. replace (S i - S (length cb))%nat with (i - length cb)%nat by lia.
    by rewrite <-app_assoc.
Qed.

End Loop.

(** The loop of [main] hands the batches of the list, in order, to
    [process_batch]. *)
Lemma process_companies_batches create json_loads (args : Args) (l : list Entity) :
  process_companies create json_loads args l
  = process_batches create json_loads args (length l) initial_state 0
      (batches_of (batch_size args) l).
Proof.
  unfold process_companies, batches_of, initial_state. case_decide as HB.
  - rewrite (loop_batches _ _ _ _ (Z.to_nat (batch_size args)));
      simpl; (lia || done).
  - case_decide as Hl; [by subst|].
    rewrite loop_one_batch; simpl; (lia || done).
Qed.

(** C2. For a list of [N ≥ 1] companies and a batch size [B ≥ 1], the loop
    processes [ceil(N/B)] batches, which are the contiguous slices of size
    [B] of the list, in order: every batch but the last has size [B], the
    last has size [N mod B], or [B] when that is 0. *)
Theorem process_companies_partition create json_loads (args : Args)
    (l : list Entity) :
  (1 ≤ length l)%nat → 1 ≤ batch_size args →
  let B := Z.to_nat (batch_size args) in
  let N := length l in
  process_companies create json_loads args l
  = process_batches create json_loads args N initial_state 0 (batches B l)
  ∧ length (batches B l) = batch_count N B
  ∧ ((batch_count N B - 1) * B < N ≤ batch_count N B * B)%nat
  ∧ concat (batches B l) = l
  ∧ ∀ k b, batches B l !! k = Some b →
      b = take B (drop (k * B) l) ∧
      length b = if decide (S k < batch_count N B)%nat then B
                 else if decide (N `mod` B = 0)%nat then B
                 else (N `mod` B)%nat.
Proof.
  intros HN HB B N. assert (1 ≤ B)%nat as HB1 by (unfold B; lia).
  split; [|split; [|split; [|split]]].
  - rewrite process_companies_batches. unfold batches_of.
    by rewrite decide_True by done.
  - unfold batches. by rewrite length_fmap, length_seq.
  - pose proof (batch_count_ceil N B HB1). lia.
  - by apply concat_batches.
  - intros k b [Hk ->]%batches_lookup. split; [done|].
    by apply length_nth_batch.
Qed.

Lemma process_companies_partition_witness :
  batches 2 five_companies
  = [[company "A" "a"; company "B" "b"]; [company "C" "c"; company "D" "d"];
     [company "E" "e"]]
  ∧ process_companies client_mixed stub_json_loads (args_of 2 json) five_companies
    = process_batches client_mixed stub_json_loads (args_of 2 json) 5
        initial_state 0 (batches 2 five_companies).
Proof.
  split; [reflexivity|].
  refine (proj1 (process_companies_partition client_mixed stub_json_loads
                   (args_of 2 json) five_companies _ _)); simpl; lia.
Defined.

(** ** The batch step *)

Section BatchStep.
Variable create : nat → string → string → string → exn + string.
Variable json_loads : string → exn + JSON.

(** [analyze_batch], case by case. *)
Lemma analyze_batch_eq (cb : list Entity) (bn : nat) (job model : string) :
  analyze_batch create json_loads cb bn job model =
    match company_texts 0 cb with
    | inl e => ([], inl e)
    | inr texts =>
        let p := prompt job (join (newline +:+ newline) texts) in
        let request := Request model (system_message job) p (7 # 10) in
        match create bn model (system_message job) p with
        | inl e => ([request; LogError (ErrorInBatch bn e)], inr JNull)
        | inr text =>
            match json_loads (extract_json_from_response text) with
            | inl e => ([request; LogError (ErrorInBatch bn e)], inr JNull)
            | inr v => ([request], inr v)
            end
        end
    end.
Proof.
  unfold analyze_batch. destruct (company_texts 0 cb) as [e|texts]; [done|].
  simpl. destruct (create _ _ _ _) as [e|text]; [done|].
  simpl. by destruct (json_loads _).
Qed.

(** The batch that ends with the last company is not paced, so its
    processing does not depend on the batch size. *)
Lemma process_batch_last (args args' : Args) (n i : nat) (st : loop_state) :
  ¬ (Z.of_nat i < Z.of_nat n - 1) →
  job args = job args' → model args = model args' →
  output_format args = output_format args' →
  process_batch create json_loads args n i st
  = process_batch create json_loads args' n i st.
Proof.
  intros Hi Hj Hm Hf. unfold process_batch, rate_limiting.
  rewrite (bool_decide_eq_false_2 _ Hi), Hj, Hm, Hf. done.
Qed.

Lemma bind_ret_r {A} (m : M A) : (m ≫= mret) = m.
Proof.
  destruct m as [t [e|a]]; [done|]. rewrite bind_inr. simpl.
  by rewrite app_nil_r.
Qed.

Lemma dict_to_list_inl (r : JSON) (e : exn) :
  dict_to_list r = inl e →
  (∃ m, e = ValueError m) ∨ (∃ m, e = AttributeError m).
Proof.
  destruct r as [| | | | | |fields]; simpl;
    try (intros [= <-]; right; by eexists).
  destruct (filter _ _); [done|]. intros [= <-]. left. by eexists.
Qed.

(** The exceptions that stop the writing of the rows. *)
Lemma writerows_Some (results : list JSON) (e : exn) :
  (writerows results).2 = Some e →
  (∃ m, e = ValueError m) ∨ (∃ m, e = AttributeError m)
  ∨ e = UnicodeEncodeError.
Proof.
  induction results as [|r results IH]; [done|]. simpl.
  destruct (dict_to_list r) as [e'|row] eqn:Hr.
  - intros [= <-]. apply dict_to_list_inl in Hr as [?|?]; auto.
  - destruct (row_encodable row); [|intros [= <-]; auto].
    destruct (writerows results) as [rows e']. simpl in *. exact IH.
Qed.

Lemma save_results_inl (results : list JSON) (format : Format) (e : exn) :
  (save_results results format).2 = inl e →
  (∃ m, e = ValueError m) ∨ (∃ m, e = AttributeError m)
  ∨ e = UnicodeEncodeError.
Proof.
  destruct format; simpl.
  - destruct (forallb _ _); [done|]. intros [= <-]. auto.
  - pose proof (writerows_Some results) as Hw.
    destruct (writerows results) as [rows [e'|]]; simpl in *; [|done].
    intros [= <-]. by apply Hw.
Qed.

Lemma save_results_no_zero_division (results : list JSON) (format : Format) :
  (save_results results format).2 ≠ inl ZeroDivisionError.
Proof.
  intros H. apply save_results_inl in H as [[m ?]|[[m ?]|?]]; done.
Qed.

(** Only the pacing divides by the batch size. *)
Lemma process_batch_last_no_zero_division (args : Args) (n i : nat)
    (st : loop_state) :
  ¬ (Z.of_nat i < Z.of_nat n - 1) →
  (process_batch create json_loads args n i st).2 ≠ inl ZeroDivisionError.
Proof.
  intros Hi. unfold process_batch, rate_limiting.
  rewrite (bool_decide_eq_false_2 _ Hi).
  rewrite analyze_batch_eq.
  pose proof (save_results_no_zero_division) as Hsave.
  assert (∀ i l, company_texts i l ≠ inl ZeroDivisionError) as Hct.
  { intros j l. revert j. induction l as [|c l IH]; intros j; [done|].
    simpl. unfold company_text. specialize (IH (S j)).
    repeat case_match; simpl; try done. by destruct (company_texts (S j) l). }
  destruct (company_texts 0 (current_batch st)) as [e|texts] eqn:Hc.
  { simpl. intros [= ->]. by eapply Hct. }
  assert (∀ (ta : list event) (v : JSON),
    (emit (LogInfo (ProcessingBatch (batch_num st) (length (current_batch st))));;
     result ← ((ta, inr v) : M JSON);
     all_results ←
       (if truthy result then
          analyses ← lift (getitem result "analyses");
          items ← lift (iterate analyses);
          let all_results := all_results st ++ items in
          save_results all_results (output_format args);;
          emit (LogInfo (BatchProcessed (batch_num st)));;
          mret all_results
        else mret (all_results st));
     mret ();;
     mret {| current_batch := []; all_results := all_results;
             batch_num := S (batch_num st) |}).2 ≠ inl ZeroDivisionError) as Hrest.
  { intros ta v. unfold emit. rewrite !bind_inr. simpl.
    destruct (truthy v); [|done].
    destruct (getitem v "analyses") as [e|an] eqn:Hg.
    { simpl. unfold getitem in Hg. repeat case_match; congruence. }
    destruct (iterate an) as [e|items] eqn:Hit.
    { simpl. unfold iterate in Hit. repeat case_match; congruence. }
    specialize (Hsave (all_results st ++ items) (output_format args)).
    destruct (save_results _ _) as [ts [e|[]]]; simpl in *; [congruence|done]. }
  cbv beta iota zeta.
  destruct (create _ _ _ _) as [e|text]; [apply Hrest|].
  destruct (json_loads _); apply Hrest.
Qed.

End BatchStep.

(** ** A batch size below 1 *)

(** C9. With a batch size below 1, the loop over a non-empty list hands one
    batch, the whole list, to the analyzer when it reaches the last company;
    the run is the run with the batch size [N], and no division by the
    batch size takes place. *)
Theorem process_companies_nonpositive_batch_size create json_loads
    (args : Args) (l : list Entity) :
  l ≠ [] → batch_size args ≤ 0 →
  let N := length l in
  process_companies create json_loads args l
  = process_batch create json_loads args N (N - 1)
      {| current_batch := l; all_results := []; batch_num := 1 |}
  ∧ process_companies create json_loads args l
    = process_companies create json_loads
        {| job := job args; batch_size := Z.of_nat N; model := model args;
           output_format := output_format args |} l
  ∧ (process_companies create json_loads args l).2 ≠ inl ZeroDivisionError.
Proof.
  intros Hl HB N.
  assert (1 ≤ N)%nat as HN by (unfold N; destruct l; simpl; [done|lia]).
  assert (process_companies create json_loads args l
          = process_batch create json_loads args N (N - 1)
              {| current_batch := l; all_results := []; batch_num := 1 |}) as Heq.
  { rewrite process_companies_batches. unfold batches_of.
    rewrite decide_False, decide_False by (done || lia).
    simpl. by rewrite bind_ret_r. }
  split; [done|split].
  - rewrite Heq, process_companies_batches. unfold batches_of. simpl.
    rewrite decide_True by lia. rewrite Nat2Z.id, batches_single by (fold N; lia).
    simpl. rewrite bind_ret_r. apply process_batch_last; simpl; (lia || done).
  - rewrite Heq. apply process_batch_last_no_zero_division. lia.
Qed.

Lemma process_companies_nonpositive_batch_size_witness :
  process_companies client_mixed stub_json_loads (args_of 0 json) five_companies
  = process_batch client_mixed stub_json_loads (args_of 0 json) 5 4
      {| current_batch := five_companies; all_results := []; batch_num := 1 |}.
Proof.
  refine (proj1 (process_companies_nonpositive_batch_size client_mixed
                   stub_json_loads (args_of 0 json) five_companies _ _));
    [done|simpl; lia].
Defined.

(** ** Pacing *)

Section Pacing.
Variable create : nat → string → string → string → exn + string.
Variable json_loads : string → exn + JSON.
Variable args : Args.

Lemma analyze_batch_pacing (cb : list Entity) (bn : nat) (job model : string) :
  filter is_pacing (analyze_batch create json_loads cb bn job model).1 = [].
Proof. rewrite analyze_batch_eq. cbv zeta. by repeat case_match. Qed.

Lemma save_results_pacing (results : list JSON) (format : Format) :
  filter is_pacing (save_results results format).1 = [].
Proof.
  destruct format; simpl; [by destruct (forallb _ _)|].
  by destruct (writerows results) as [rows [e|]].
Qed.

Lemma rate_limit_handler_inr (B : Z) (total : nat) (t : list event) (u : ()) :
  rate_limit_handler B total = (t, inr u) →
  t = [LogInfo (EstimatedCost (estimated_cost B total)); Sleep 2].
Proof. unfold rate_limit_handler. case_bool_decide; [done|]. by intros [= <-]. Qed.

(** The pacing events of one processed batch. *)
Lemma process_batch_pacing (n i : nat) (st st' : loop_state) (t : list event) :
  process_batch create json_loads args n i st = (t, inr st') →
  filter is_pacing t =
    LogInfo (ProcessingBatch (batch_num st) (length (current_batch st))) ::
    if bool_decide (Z.of_nat i < Z.of_nat n - 1)
    then [LogInfo (EstimatedCost (estimated_cost (batch_size args) (i + 1)));
          Sleep 2]
    else [].
Proof.
  unfold process_batch. intros H.
  apply bind_inr_inv in H as (t0 & [] & t' & [= <-] & H & ->).
  apply bind_inr_inv in H as (ta & result & t1 & Ha & H & ->).
  apply bind_inr_inv in H as (th & all & t2 & Hh & H & ->).
  apply bind_inr_inv in H as (tp & [] & t3 & Hp & [= <- _] & ->).
  pose proof (analyze_batch_pacing (current_batch st) (batch_num st)
                (job args) (model args)) as Hfa.
  rewrite Ha in Hfa. simpl in Hfa.
  rewrite !filter_app, Hfa, app_nil_r. simpl. f_equal.
  assert (filter is_pacing th = []) as ->.
  { destruct (truthy result); [|by injection Hh as <- _].
    apply bind_inr_inv in Hh as (t4 & analyses & t5 & [= <- _] & Hh & ->).
    apply bind_inr_inv in Hh as (t6 & items & t7 & [= <- _] & Hh & ->).
    apply bind_inr_inv in Hh as (ts & [] & t8 & Hs & [= <- _] & ->).
    pose proof (save_results_pacing (all_results st ++ items)
                  (output_format args)) as Hfs.
    rewrite Hs in Hfs. simpl in Hfs. by rewrite !filter_app, Hfs. }
  unfold rate_limiting in Hp. case_bool_decide; simpl.
  - apply rate_limit_handler_inr in Hp as ->. done.
  - by injection Hp as <-.
Qed.

Lemma process_batches_pacing (n : nat) (bs : list (list Entity))
    (st st' : loop_state) (done : nat) (t : list event) :
  Forall (λ b, b ≠ []) bs → (done + length (concat bs))%nat = n →
  process_batches create json_loads args n st done bs = (t, inr st') →
  filter is_pacing t = pacing_trace (batch_size args) (batch_num st) done bs.
Proof.
  revert st done t. induction bs as [|b bs IH]; intros st done t Hne Hn H.
  { by injection H as <- _. }
  apply Forall_cons in Hne as [Hb Hne]. simpl in H, Hn.
  rewrite length_app in Hn.
  assert (1 ≤ length b)%nat by (destruct b; simpl; [done|lia]).
  bind_inv H. subst t.
  pose proof (process_batch_inr _ _ _ _ _ _ _ _ H1) as [_ Hbn].
  apply process_batch_pacing in H1. simpl in H1, Hbn.
  apply IH in H; [|done|lia].
  rewrite filter_app, H1, H, Hbn. simpl. f_equal.
  replace (done + length b - 1 + 1)%nat with (done + length b)%nat by lia.
  destruct bs as [|b' bs].
  - rewrite bool_decide_eq_false_2 by (simpl in Hn; lia). done.
  - apply Forall_cons in Hne as [Hb' _].
    assert (1 ≤ length b')%nat by (destruct b'; simpl; [done|lia]).
    rewrite bool_decide_eq_true_2; [done|].
    simpl in Hn. rewrite length_app in Hn. lia.
Qed.

(** One processed batch: its start line, its request, its other events,
    and its pacing when it is not the last. *)
Lemma process_batch_paced (n i : nat) (st st' : loop_state) (t : list event) :
  process_batch create json_loads args n i st = (t, inr st') →
  ∃ ev work,
    t = LogInfo (ProcessingBatch (batch_num st) (length (current_batch st)))
        :: ev :: work
        ++ (if bool_decide (Z.of_nat i < Z.of_nat n - 1)
            then [LogInfo (EstimatedCost
                             (estimated_cost (batch_size args) (i + 1)));
                  Sleep 2]
            else [])
    ∧ request_of args ev (current_batch st)
    ∧ filter is_pacing work = [].
Proof.
  unfold process_batch. intros H.
  apply bind_inr_inv in H as (t0 & [] & t' & [= <-] & H & ->).
  apply bind_inr_inv in H as (ta & result & t1 & Ha & H & ->).
  apply bind_inr_inv in H as (th & all & t2 & Hh & H & ->).
  apply bind_inr_inv in H as (tp & [] & t3 & Hp & [= <- _] & ->).
  assert (filter is_pacing th = []) as Hth.
  { destruct (truthy result); [|by injection Hh as <- _].
    apply bind_inr_inv in Hh as (t4 & analyses & t5 & [= <- _] & Hh & ->).
    apply bind_inr_inv in Hh as (t6 & items & t7 & [= <- _] & Hh & ->).
    apply bind_inr_inv in Hh as (ts & [] & t8 & Hs & [= <- _] & ->).
    pose proof (save_results_pacing (all_results st ++ items)
                  (output_format args)) as Hfs.
    rewrite Hs in Hfs. simpl in Hfs. by rewrite !filter_app, Hfs. }
  assert (tp = if bool_decide (Z.of_nat i < Z.of_nat n - 1)
               then [LogInfo (EstimatedCost
                                (estimated_cost (batch_size args) (i + 1)));
                     Sleep 2]
               else []) as ->.
  { unfold rate_limiting in Hp. case_bool_decide.
    - by apply rate_limit_handler_inr in Hp.
    - by injection Hp as <-. }
  rewrite analyze_batch_eq in Ha.
  destruct (company_texts 0 (current_batch st)) as [e|texts] eqn:Hct; [done|].
  cbv zeta in Ha.
  assert (∃ errors,
    ta = Request (model args) (system_message (job args))
           (prompt (job args) (join (newline +:+ newline) texts)) (7 # 10)
         :: errors
    ∧ filter is_pacing errors = []) as (errors & -> & Herr).
  { destruct (create _ _ _ _) as [e|text].
    { injection Ha as <- _. by eexists. }
    destruct (json_loads _); injection Ha as <- _; by eexists. }
  eexists _, (errors ++ th). split; [|split].
  - simpl. by rewrite app_nil_r, <-!app_assoc.
  - by exists texts.
  - by rewrite filter_app, Herr, Hth.
Qed.

Lemma process_batches_paced (n : nat) (bs : list (list Entity))
    (st st' : loop_state) (done : nat) (t : list event) :
  Forall (λ b, b ≠ []) bs → (done + length (concat bs))%nat = n →
  process_batches create json_loads args n st done bs = (t, inr st') →
  paced args (batch_num st) done bs t.
Proof.
  revert st done t. induction bs as [|b bs IH]; intros st done t Hne Hn H.
  { by injection H as <- _. }
  apply Forall_cons in Hne as [Hb Hne]. simpl in H, Hn.
  rewrite length_app in Hn.
  assert (1 ≤ length b)%nat as Hlen by (destruct b; simpl; [done|lia]).
  apply bind_inr_inv in H as (t1 & st1 & t2 & H1 & H & ->).
  pose proof (process_batch_inr _ _ _ _ _ _ _ _ H1) as [_ Hbn].
  apply process_batch_paced in H1 as (ev & work & -> & Hev & Hwork).
  simpl in Hev, Hbn. apply IH in H; [|done|lia]. rewrite Hbn in H.
  cbn [paced].
  replace (done + length b - 1 + 1)%nat with (done + length b)%nat by lia.
  eexists ev, work, _, t2. split; [|split; [done|split; [done|split; [|done]]]].
  - simpl. by rewrite <-app_assoc.
  - destruct bs as [|b' bs].
    + rewrite bool_decide_eq_false_2 by (simpl in Hn; lia). done.
    + apply Forall_cons in Hne as [Hb' _].
      assert (1 ≤ length b')%nat by (destruct b'; simpl; [done|lia]).
      rewrite bool_decide_eq_true_2;
        [|simpl in Hn; rewrite length_app in Hn; lia].
      by eexists.
Qed.

End Pacing.

(** C8. A run of the loop that completes is, batch by batch: the start
    line of the batch, its request and its other events, and then, after
    every batch but the last, the cost line, whose value is the number of
    companies processed so far divided by the batch size, times 0.01, and a
    sleep of 2 seconds; nothing follows the events of the last batch. The
    start, cost and sleep events of the run are no others. *)
Theorem process_companies_pacing create json_loads (args : Args)
    (l : list Entity) (t : list event) (st : loop_state) :
  process_companies create json_loads args l = (t, inr st) →
  paced args 1 0 (batches_of (batch_size args) l) t
  ∧ filter is_pacing t
    = pacing_trace (batch_size args) 1 0 (batches_of (batch_size args) l).
Proof.
  rewrite process_companies_batches. intros H. split.
  - eapply process_batches_paced in H; [done|apply batches_of_nonempty|].
    by rewrite concat_batches_of.
  - eapply process_batches_pacing in H; [done|apply batches_of_nonempty|].
    by rewrite concat_batches_of.
Qed.

Lemma process_companies_pacing_witness :
  paced (args_of 2 json) 1 0 (batches_of 2 five_companies)
    (process_companies client_mixed stub_json_loads (args_of 2 json)
       five_companies).1
  ∧ filter is_pacing
      (process_companies client_mixed stub_json_loads (args_of 2 json)
         five_companies).1
    = [LogInfo (ProcessingBatch 1 2);
       LogInfo (EstimatedCost (estimated_cost 2 2)); Sleep 2;
       LogInfo (ProcessingBatch 2 2);
       LogInfo (EstimatedCost (estimated_cost 2 4)); Sleep 2;
       LogInfo (ProcessingBatch 3 1)].
Proof.
  destruct (process_companies client_mixed stub_json_loads (args_of 2 json)
              five_companies) as [t [e|st]] eqn:H; [by vm_compute in H|].
  exact (process_companies_pacing _ _ _ _ _ _ H).
Defined.

(** ** Batches without results *)

Section Unsuccessful.
Variable create : nat → string → string → string → exn + string.
Variable json_loads : string → exn + JSON.
Variable args : Args.

(** A batch whose answer is not truthy: nothing but the pacing follows
    the analysis. *)
Lemma process_batch_unsuccessful (n i : nat) (st : loop_state)
    (ta : list event) (v : JSON) :
  analyze_batch create json_loads (current_batch st) (batch_num st)
    (job args) (model args) = (ta, inr v) →
  truthy v = false →
  process_batch create json_loads args n i st
  = ((LogInfo (ProcessingBatch (batch_num st) (length (current_batch st))) :: ta,
      inr ()) : M ()) ≫= λ _,
    rate_limiting args n i ≫= λ _,
    mret {| current_batch := []; all_results := all_results st;
            batch_num := S (batch_num st) |}.
Proof.
  intros Ha Hv. unfold process_batch. rewrite Ha. unfold emit.
  rewrite !bind_inr. rewrite Hv. rewrite bind_ret_l. simpl.
  by destruct (rate_limiting args n i) as [tp [e|[]]].
Qed.

Lemma rate_limiting_inr (n i : nat) :
  batch_size args ≠ 0 ∨ ¬ (Z.of_nat i < Z.of_nat n - 1) →
  ∃ tp, rate_limiting args n i = (tp, inr ()) ∧
        filter is_write tp = [] ∧ logged_errors tp = [].
Proof.
  intros H. unfold rate_limiting, rate_limit_handler.
  case_bool_decide as Hi; [|by eexists].
  destruct H as [H|H]; [|done].
  rewrite bool_decide_eq_false_2 by done. by eexists.
Qed.

End Unsuccessful.


(** C10. A batch whose answer parses into a falsy value goes the way of a
    failed batch, whose result is [None]: its processing is the start line,
    the analysis and the pacing, whatever the value; nothing is written,
    and, under the condition on which the loop processes a batch, the
    results are those of before and the loop goes on to the next batch. *)
Theorem process_batch_falsy create json_loads (args : Args) (n i : nat)
    (st : loop_state) (ta : list event) (v : JSON) :
  analyze_batch create json_loads (current_batch st) (batch_num st)
    (job args) (model args) = (ta, inr v) →
  truthy v = false →
  let next := {| current_batch := []; all_results := all_results st;
                 batch_num := S (batch_num st) |} in
  let skipped (ta : list event) : M loop_state :=
    ((LogInfo (ProcessingBatch (batch_num st) (length (current_batch st))) :: ta,
      inr ()) : M ()) ≫= λ _, rate_limiting args n i ≫= λ _, mret next in
  process_batch create json_loads args n i st = skipped ta
  ∧ (∀ create' json_loads' ta',
       analyze_batch create' json_loads' (current_batch st) (batch_num st)
         (job args) (model args) = (ta', inr JNull) →
       process_batch create' json_loads' args n i st = skipped ta')
  ∧ filter is_write (process_batch create json_loads args n i st).1 = []
  ∧ (current_batch st ≠ [] →
     Z.of_nat (length (current_batch st)) = batch_size args
     ∨ Z.of_nat i = Z.of_nat n - 1 →
     (process_batch create json_loads args n i st).2 = inr next).
Proof.
  intros Ha Hv next skipped.
  assert (process_batch create json_loads args n i st = skipped ta) as Heq
    by by apply (process_batch_unsuccessful _ _ _ _ _ _ _ v).
  assert (filter is_write ta = []) as Hw.
  { rewrite analyze_batch_eq in Ha. cbv zeta in Ha.
    repeat case_match; by simplify_eq. }
  split; [done|split; [|split]].
  - intros create' json_loads' ta' Ha'.
    by apply (process_batch_unsuccessful _ _ _ _ _ _ _ JNull).
  - rewrite Heq. unfold skipped. rewrite bind_inr. simpl.
    rewrite filter_cons, filter_app, Hw. simpl.
    unfold rate_limiting, rate_limit_handler.
    by repeat case_bool_decide.
  - intros Hcb Hguard. rewrite Heq. unfold skipped. rewrite bind_inr.
    destruct (rate_limiting_inr args n i) as (tp & -> & _); [|done].
    destruct Hguard as [Hlen|Hlast]; [left|right; lia].
    destruct (current_batch st); simpl in Hlen; [done|lia].
Qed.

Lemma process_batch_falsy_witness :
  let st := {| current_batch := [company "A" "a"; company "B" "b"];
               all_results := [scored "Z" 50 "moyen"]; batch_num := 1 |} in
  let run := process_batch (client_canned "{}") stub_json_loads
               (args_of 2 json) 5 1 st in
  run.2 = inr {| current_batch := []; all_results := [scored "Z" 50 "moyen"];
                 batch_num := 2 |}
  ∧ filter is_write run.1 = [].
Proof.
  intros st run.
  destruct (process_batch_falsy (client_canned "{}") stub_json_loads
              (args_of 2 json) 5 1 st _ (JObj []) eq_refl eq_refl)
    as (_ & _ & Hw & Hn).
  split; [apply Hn; [done|by left]|exact Hw].
Defined.

(** ** A service that always fails *)


Lemma persisted_no_write (name : string) (t : list event) :
  filter is_write t = [] → persisted name t = None.
Proof.
  induction t as [|ev t IH]; [done|]. rewrite filter_cons.
  destruct ev; simpl; try done; intros H; by rewrite (IH H).
Qed.

Section ClientDown.
Variable create : nat → string → string → string → exn + string.
Variable json_loads : string → exn + JSON.
Variable args : Args.
Hypothesis create_fails : ∀ k m s u, ∃ e, create k m s u = inl e.

Lemma company_texts_inr (cb : list Entity) (i : nat) :
  Forall has_fields cb → ∃ texts, company_texts i cb = inr texts.
Proof.
  intros H. revert i. induction H as [|c cb [[x Hx] [y Hy]] _ IH]; intros i.
  - by eexists.
  - simpl. unfold company_text. rewrite Hx, Hy. simpl.
    destruct (IH (S i)) as [texts ->]. by eexists.
Qed.

Lemma analyze_batch_down (cb : list Entity) (bn : nat) (job model : string) :
  Forall has_fields cb →
  ∃ p e,
    analyze_batch create json_loads cb bn job model
    = ([Request model (system_message job) p (7 # 10);
        LogError (ErrorInBatch bn e)], inr JNull).
Proof.
  intros [texts Ht]%(company_texts_inr _ 0%nat).
  rewrite analyze_batch_eq, Ht. cbv zeta.
  destruct (create_fails bn model (system_message job)
              (prompt job (join (newline +:+ newline) texts))) as [e ->].
  by eexists _, _.
Qed.

(** Every batch logs its error and leaves the results and the file as
    they are. *)
Lemma process_batches_down (n : nat) (bs : list (list Entity))
    (st : loop_state) (done : nat) :
  Forall (Forall has_fields) bs → Forall (λ b, b ≠ []) bs →
  (done + length (concat bs))%nat = n →
  (batch_size args = 0 → (length bs ≤ 1)%nat) →
  ∃ t st',
    process_batches create json_loads args n st done bs = (t, inr st')
    ∧ all_results st' = all_results st
    ∧ Forall2 (λ m k, ∃ e, m = ErrorInBatch k e)
        (logged_errors t) (seq (batch_num st) (length bs))
    ∧ filter is_write t = [].
Proof.
  revert st done. induction bs as [|b bs IH]; intros st done Hf Hne Hn HB.
  { eexists _, _. split; [done|]. repeat split. constructor. }
  apply Forall_cons in Hf as [Hb Hf]. apply Forall_cons in Hne as [Hbne Hne].
  simpl in Hn. rewrite length_app in Hn.
  assert (1 ≤ length b)%nat by (destruct b; simpl; [done|lia]).
  set (st0 := {| current_batch := b; all_results := all_results st;
                 batch_num := batch_num st |}).
  destruct (analyze_batch_down b (batch_num st) (job args) (model args) Hb)
    as (p & e & Ha).
  destruct (rate_limiting_inr args n (done + length b - 1)) as (tp & Hp & Hpw & Hpe).
  { destruct bs as [|b' bs]; [right; simpl in Hn; lia|].
    left. intros H0. specialize (HB H0). simpl in HB. lia. }
  destruct (IH {| current_batch := []; all_results := all_results st;
                     batch_num := S (batch_num st) |} (done + length b)%nat) as (t & st' & Ht & Hall & Herr & Hw);
    [done|done|lia|intros H0; specialize (HB H0); simpl in HB; lia|].
  simpl. fold st0.
  rewrite (process_batch_unsuccessful _ _ _ _ _ st0 _ JNull Ha eq_refl).
  rewrite bind_inr, Hp. simpl. rewrite Ht. simpl.
  eexists _, _. split; [done|]. split; [done|]. split.
  - unfold logged_errors in *. simpl. rewrite !omap_app, Hpe. simpl.
    constructor; eauto.
  - rewrite !filter_cons. simpl. by rewrite !filter_app, Hw, Hpw.
Qed.

End ClientDown.

(** ** [main] *)

Lemma main_run create json_loads (key : string) (args : Args) (l : list Entity) :
  key ≠ "" → job args ≠ "" → job args ≠ "define-your-job-here" →
  main create json_loads (Some key) args (inr l)
  = try_except
      (emit (LogInfo (Loaded (length l)));;
       st ← process_companies create json_loads args l;
       sort_and_display args (all_results st))
      (λ e, emit (LogError (ErrorInMain e));; raise e).
Proof.
  intros Hk Hj1 Hj2. unfold main, validate_job_title.
  rewrite (bool_decide_eq_false_2 (Some key = None)) by done.
  rewrite (bool_decide_eq_false_2 (Some key = Some "")) by congruence.
  rewrite !bool_decide_eq_false_2 by done. simpl.
  destruct (_ ≫= _) as [t r]. by destruct (try_except _ _).
Qed.

Lemma batches_of_Forall {A} (P : A → Prop) (Bz : Z) (l : list A) :
  Forall P l → Forall (Forall P) (batches_of Bz l).
Proof.
  intros H. apply Forall_concat. by rewrite concat_batches_of.
Qed.

Lemma batches_of_zero {A} (l : list A) : (length (batches_of 0 l) ≤ 1)%nat.
Proof.
  unfold batches_of. rewrite decide_False by lia. case_decide; simpl; lia.
Qed.

(** C5. If the service fails on every request, a run over a non-empty list
    of entities still completes: every batch is started, one error is
    logged per batch, with its number, and the result file is written with
    no result in it. *)
Theorem main_client_down create json_loads (key : string) (args : Args)
    (l : list Entity) :
  (∀ k m s u, ∃ e, create k m s u = inl e) →
  l ≠ [] → Forall has_fields l →
  key ≠ "" → job args ≠ "" → job args ≠ "define-your-job-here" →
  ∃ t,
    main create json_loads (Some key) args (inr l) = (t, inr ())
    ∧ filter is_pacing t
      = pacing_trace (batch_size args) 1 0 (batches_of (batch_size args) l)
    ∧ Forall2 (λ m k, ∃ e, m = ErrorInBatch k e)
        (logged_errors t)
        (seq 1 (length (batches_of (batch_size args) l)))
    ∧ persisted (output_file (output_format args)) t
      = Some (document (output_format args) []).
Proof.
  intros Hdown Hl Hf Hk Hj1 Hj2. rewrite main_run by done.
  destruct (process_batches_down create json_loads args Hdown (length l)
              (batches_of (batch_size args) l) initial_state 0)
    as (t1 & st & Hrun & Hall & Herr & Hw).
  { by apply batches_of_Forall. }
  { apply batches_of_nonempty. }
  { by rewrite concat_batches_of. }
  { intros ->. apply batches_of_zero. }
  pose proof Hrun as Hpace.
  apply process_batches_pacing in Hpace;
    [|apply batches_of_nonempty|by rewrite concat_batches_of].
  rewrite process_companies_batches, Hrun. simpl in Hall. unfold emit.
  rewrite !bind_inr. rewrite Hall.
  assert (sort_and_display args []
          = ([WriteFile (output_file (output_format args))
                (document (output_format args) []);
              LogInfo (ResultsSaved (output_file (output_format args)));
              LogInfo TopCompanies], inr ())) as ->.
  { unfold sort_and_display. by destruct (output_format args). }
  simpl. eexists. split; [done|]. split; [|split].
  - rewrite filter_cons. simpl. rewrite filter_app, Hpace. simpl.
    by rewrite app_nil_r.
  - unfold logged_errors in *. simpl. rewrite omap_app. simpl.
    by rewrite app_nil_r.
  - change (LogInfo (Loaded (length l)) :: t1 ++ ?t2)
      with ([LogInfo (Loaded (length l))] ++ t1 ++ t2).
    rewrite !persisted_app. simpl. by rewrite decide_True.
Qed.

Lemma main_client_down_witness :
  ∃ t,
    main client_down stub_json_loads (Some "sk") (args_of 2 csv)
      (inr five_companies) = (t, inr ())
    ∧ logged_errors t
      = [ErrorInBatch 1 (APIError "Connection error.");
         ErrorInBatch 2 (APIError "Connection error.");
         ErrorInBatch 3 (APIError "Connection error.")]
    ∧ persisted (output_file csv) t
      = Some (CsvDoc [[JStr "company_name"; JStr "score"; JStr "explanation"]]).
Proof.
  destruct (main_client_down client_down stub_json_loads "sk" (args_of 2 csv)
              five_companies) as (t & Hrun & _ & _ & Hfile);
    [by eexists|done|by repeat constructor; vm_compute; eauto|done..|].
  exists t. split; [done|]. split; [|done].
  vm_compute in Hrun. by injection Hrun as <-.
Defined.

(** C1 (the code departs from it). A batch whose answer parses into an
    object without [analyses] is not a batch-level error: the [KeyError]
    escapes the analyzer, is logged by [main] without a batch number and
    ends the run, before the second batch and before any file is written. *)
Theorem main_missing_analyses_key :
  let run := main (client_canned text_results) stub_json_loads (Some "sk")
               (args_of 2 json) (inr five_companies) in
  run.2 = inl (KeyError "analyses")
  ∧ logged_errors run.1 = [ErrorInMain (KeyError "analyses")]
  ∧ filter is_pacing run.1 = [LogInfo (ProcessingBatch 1 2)]
  ∧ persisted (output_file json) run.1 = None.
Proof. vm_compute. done. Qed.

(** ** The CSV sink *)

Lemma wrong_fields_nil (keys : list string) :
  filter (λ k, k ∉ fieldnames) keys = [] ↔ Forall (λ k, k ∈ fieldnames) keys.
Proof.
  induction keys as [|k keys IH]; [by split|]. rewrite filter_cons.
  destruct (decide (k ∉ fieldnames)) as [Hk|Hk].
  - split; [done|]. by intros [? _]%Forall_cons.
  - rewrite IH. apply dec_stable in Hk. split; [by constructor|].
    by intros [_ ?]%Forall_cons.
Qed.

Lemma dict_to_list_three_fields (r : JSON) :
  three_fields r → dict_to_list r = inr (row_of r).
Proof.
  intros (fields & -> & Hf). simpl.
  by rewrite (proj2 (wrong_fields_nil _) Hf).
Qed.

Lemma dict_to_list_extra_field (fields : list (string * JSON)) :
  ¬ Forall (λ k, k ∈ fieldnames) fields.*1 →
  ∃ m, dict_to_list (JObj fields) = inl (ValueError m).
Proof.
  intros Hf. simpl.
  destruct (filter _ _) eqn:Hw; [|by eexists].
  by apply wrong_fields_nil in Hw.
Qed.

Lemma dict_to_list_inr (r : JSON) (row : list JSON) :
  dict_to_list r = inr row → three_fields r ∧ row = row_of r.
Proof.
  destruct r as [| | | | | |fields]; try done. simpl.
  destruct (filter _ _) eqn:Hw; [|done]. intros [= <-].
  split; [|done]. exists fields. split; [done|]. by apply wrong_fields_nil.
Qed.

(** The writing of the rows, record by record. *)
Lemma writerows_cons (r : JSON) (results : list JSON) :
  writerows (r :: results)
  = if decide (writable r)
    then (row_of r :: (writerows results).1, (writerows results).2)
    else ([], (writerows [r]).2).
Proof.
  simpl. destruct (dict_to_list r) as [e|row] eqn:Hr.
  - rewrite decide_False; [done|].
    intros [Hf _]. by rewrite (dict_to_list_three_fields r Hf) in Hr.
  - apply dict_to_list_inr in Hr as [Hf ->].
    destruct (row_encodable (row_of r)) eqn:He.
    + rewrite decide_True by done. by destruct (writerows results).
    + rewrite decide_False; [done|]. intros [_ ?]. congruence.
Qed.

Lemma writerows_app (before after : list JSON) :
  Forall writable before →
  writerows (before ++ after)
  = ((row_of <$> before) ++ (writerows after).1, (writerows after).2).
Proof.
  induction 1 as [|r before Hr _ IH].
  - simpl. by destruct (writerows after).
  - rewrite <-app_comm_cons, writerows_cons, decide_True by done.
    by rewrite IH.
Qed.

(** The rows written are those of the records before the first that cannot
    be written, and the writing fails exactly when there is one. *)
Lemma writerows_prefix (results : list JSON) :
  (writerows results).1 = row_of <$> writable_prefix results.
Proof.
  induction results as [|r results IH]; [done|].
  rewrite writerows_cons. cbn [writable_prefix].
  destruct (decide (writable r)); [|done]. simpl. by rewrite IH.
Qed.

Lemma writerows_None (results : list JSON) :
  (writerows results).2 = None ↔ Forall writable results.
Proof.
  induction results as [|r results IH]; [by split|].
  rewrite writerows_cons. destruct (decide (writable r)) as [Hr|Hr]; simpl.
  - rewrite IH. split; [by constructor|]. by intros [_ ?]%Forall_cons.
  - split; [|by intros [? _]%Forall_cons].
    destruct (dict_to_list r) as [e|row] eqn:Hd; [done|].
    apply dict_to_list_inr in Hd as [Hf ->].
    destruct (row_encodable (row_of r)) eqn:He; [by destruct Hr|done].
Qed.

Lemma writable_prefix_all (results : list JSON) :
  Forall writable results → writable_prefix results = results.
Proof.
  induction 1 as [|r results Hr _ IH]; [done|].
  simpl. by rewrite decide_True, IH.
Qed.

(** C4 (as amended). The CSV sink writes the header and one row of three
    columns per record when the keys of every record are among the three
    field names and the strings among its cells can be encoded, a missing
    field being written empty. A record with any other field is not cut
    down to the three columns: it stops the writing, after the rows of the
    records before it, with a [ValueError]. *)
Theorem save_results_csv (results : list JSON) :
  (Forall writable results →
   save_results results csv
   = ([WriteFile (output_file csv) (CsvDoc (header :: (row_of <$> results)));
       LogInfo (ResultsSaved (output_file csv))], inr ()))
  ∧ (∀ before fields after,
       results = before ++ JObj fields :: after →
       Forall writable before →
       ¬ Forall (λ k, k ∈ fieldnames) fields.*1 →
       ∃ m,
         save_results results csv
         = ([WriteFile (output_file csv)
               (CsvDoc (header :: (row_of <$> before)))],
            inl (ValueError m))).
Proof.
  split.
  - intros H. unfold save_results.
    rewrite <-(app_nil_r results), writerows_app by done. simpl.
    by rewrite !app_nil_r.
  - intros before fields after -> Hb Hf. unfold save_results.
    rewrite writerows_app by done.
    destruct (dict_to_list_extra_field fields Hf) as [m Hd].
    exists m. cbn [writerows]. rewrite Hd. simpl. by rewrite app_nil_r.
Qed.

Lemma save_results_csv_witness :
  save_results [scored "A" 80 "bien"; JObj [("company_name", JStr "B")]] csv
  = ([WriteFile (output_file csv)
        (CsvDoc [[JStr "company_name"; JStr "score"; JStr "explanation"];
                 [JStr "A"; JNum 80; JStr "bien"];
                 [JStr "B"; JStr ""; JStr ""]]);
      LogInfo (ResultsSaved (output_file csv))], inr ()).
Proof.
  refine (proj1 (save_results_csv _) _).
  repeat constructor; try (eexists; (split; [done|]); repeat constructor;
    by vm_compute).
Defined.

(** C4, as the specification has it, fails: a record with a fourth field is
    not written at all, and the write raises. *)
Lemma csv_extra_field_raises :
  save_results [scored_with_url] csv
  = ([WriteFile (output_file csv)
        (CsvDoc [[JStr "company_name"; JStr "score"; JStr "explanation"]])],
     inl (ValueError "dict contains fields not in fieldnames: 'url'")).
Proof. reflexivity. Qed.

(** ** Stable descending sort *)

Section StableSort.
Context {K A : Type} (ltb : K → K → bool).
Hypothesis ltb_asym : ∀ a b, ltb a b = true → ltb b a = false.
Implicit Types (x y : K * A) (l : list (K * A)).

Local Abbreviation not_less := (not_less ltb).

Lemma insert_desc_Permutation x l : insert_desc ltb x l ≡ₚ x :: l.
Proof.
  induction l as [|y l IH]; simpl; [done|].
  destruct (ltb x.1 y.1); [|done]. by rewrite IH, Permutation_swap.
Qed.

Lemma sort_desc_Permutation l : sort_desc ltb l ≡ₚ l.
Proof.
  induction l as [|x l IH]; simpl; [done|].
  by rewrite insert_desc_Permutation, IH.
Qed.

Lemma insert_desc_HdRel x y l :
  not_less y x → HdRel not_less y l → HdRel not_less y (insert_desc ltb x l).
Proof.
  intros Hyx Hl. destruct l as [|z l]; simpl; [by constructor|].
  destruct (ltb x.1 z.1); constructor; [by inversion Hl|done].
Qed.

Lemma insert_desc_Sorted x l :
  Sorted not_less l → Sorted not_less (insert_desc ltb x l).
Proof.
  induction 1 as [|y l Hl IH Hy]; simpl; [by repeat constructor|].
  destruct (ltb x.1 y.1) eqn:Hxy.
  - constructor; [done|]. apply insert_desc_HdRel; [|done].
    by apply ltb_asym.
  - by repeat constructor.
Qed.

Lemma sort_desc_Sorted l : Sorted not_less (sort_desc ltb l).
Proof.
  induction l as [|x l IH]; simpl; [constructor|].
  by apply insert_desc_Sorted.
Qed.

(** Records that no comparison tells apart keep their order. *)
Lemma insert_desc_filter (P : K * A → Prop) `{∀ x, Decision (P x)} x l :
  (∀ y z, P y → P z → ltb y.1 z.1 = false) →
  filter P (insert_desc ltb x l) = filter P (x :: l).
Proof.
  intros HP. induction l as [|y l IH]; simpl; [done|].
  destruct (ltb x.1 y.1) eqn:Hxy; [|done].
  rewrite !filter_cons in *. rewrite IH.
  destruct (decide (P x)) as [Hx|Hx], (decide (P y)) as [Hy|Hy]; try done.
  by rewrite (HP x y Hx Hy) in Hxy.
Qed.

Lemma sort_desc_filter (P : K * A → Prop) `{∀ x, Decision (P x)} l :
  (∀ y z, P y → P z → ltb y.1 z.1 = false) →
  filter P (sort_desc ltb l) = filter P l.
Proof.
  intros HP. induction l as [|x l IH]; simpl; [done|].
  rewrite insert_desc_filter by done. by rewrite !filter_cons, IH.
Qed.

End StableSort.

(** Adjacent elements of a sorted list with distinct images are apart. *)
Lemma Sorted_NoDup_strict {A B} (R R' : relation A) (f : A → B) (l : list A) :
  (∀ x y, R x y → f x ≠ f y → R' x y) →
  Sorted R l → NoDup (f <$> l) → Sorted R' l.
Proof.
  intros HR. induction 1 as [|x l Hl IH Hx]; intros Hnd; [constructor|].
  rewrite fmap_cons in Hnd. apply NoDup_cons in Hnd as [Hin Hnd].
  constructor; [by apply IH|].
  destruct Hx as [|y l Hxy]; constructor. apply HR; [done|].
  intros Heq. apply Hin. rewrite Heq, fmap_cons. apply list_elem_of_here.
Qed.

(** ** The final sort *)

Lemma Qltb_asym (a b : Q) : Qltb a b = true → Qltb b a = false.
Proof.
  unfold Qltb. rewrite negb_true_iff, negb_false_iff, Qle_bool_iff.
  intros H. destruct (Qlt_le_dec a b) as [Hlt|Hle]; [by apply Qlt_le_weak|].
  apply Qle_bool_iff in Hle. congruence.
Qed.

Lemma Qltb_false (a b : Q) : Qltb a b = false ↔ (b <= a)%Q.
Proof. unfold Qltb. by rewrite negb_false_iff, Qle_bool_iff. Qed.

Lemma zip_fmap_l {A B} (f : A → B) (l : list A) :
  zip (f <$> l) l = (λ x, (f x, x)) <$> l.
Proof. induction l as [|x l IH]; [done|]. rewrite !fmap_cons. simpl. by f_equal. Qed.

Lemma score_keys_num (l : list JSON) :
  Forall (λ x, is_Some (num_score x)) l →
  ∃ keys, score_keys l = inr keys
          ∧ mapM as_number keys = Some (Finite <$> (score_of <$> l)).
Proof.
  induction 1 as [|x l [q Hq] _ (keys & Hk & Hn)]; [by eexists|].
  unfold score_of. rewrite !fmap_cons, Hq. unfold num_score in Hq. simpl.
  destruct (getitem x "score") as [e|k]; [done|]. rewrite Hk. simpl.
  exists (k :: keys). split; [done|]. simpl.
  destruct (as_number k) as [[q'|]|]; [|done..]. injection Hq as ->. simpl.
  fold (mapM (M:=option) as_number keys). by rewrite Hn.
Qed.

(** Sorting does not depend on how the keys are written, only on what the
    comparison says of them. *)
Lemma insert_desc_fmap {K K' A} (ltb : K → K → bool) (ltb' : K' → K' → bool)
    (f : K → K') (x : K * A) (d : list (K * A)) :
  (∀ a b, ltb' (f a) (f b) = ltb a b) →
  insert_desc ltb' (prod_map f id x) (prod_map f id <$> d)
  = prod_map f id <$> insert_desc ltb x d.
Proof.
  intros Hf. induction d as [|y d IH]; [done|].
  rewrite fmap_cons. simpl. rewrite Hf.
  destruct (ltb x.1 y.1); [|done]. rewrite fmap_cons. by f_equal.
Qed.

Lemma sort_desc_fmap {K K' A} (ltb : K → K → bool) (ltb' : K' → K' → bool)
    (f : K → K') (d : list (K * A)) :
  (∀ a b, ltb' (f a) (f b) = ltb a b) →
  sort_desc ltb' (prod_map f id <$> d) = prod_map f id <$> sort_desc ltb d.
Proof.
  intros Hf. induction d as [|x d IH]; [done|].
  rewrite fmap_cons. simpl. fold (sort_desc ltb' (prod_map f id <$> d)).
  fold (sort_desc ltb d). rewrite IH. by apply insert_desc_fmap.
Qed.

(** On records with numeric scores, [sorted] is the stable descending sort
    of the records decorated with their scores. *)
Lemma sorted_by_score_num (l : list JSON) :
  Forall (λ x, is_Some (num_score x)) l →
  sorted_by_score l = inr (sort_desc Qltb (decorate <$> l)).*2.
Proof.
  intros (keys & Hk & Hn)%score_keys_num. unfold sorted_by_score.
  rewrite Hk. simpl. case_bool_decide as Hlen.
  - destruct l as [|x [|y l]]; simpl in *; (done || lia).
  - rewrite Hn. f_equal.
    assert (zip (Finite <$> (score_of <$> l)) l
            = prod_map Finite id <$> (decorate <$> l)) as ->.
    { rewrite <-!list_fmap_compose. apply zip_fmap_l. }
    rewrite (sort_desc_fmap Qltb number_ltb Finite) by done.
    rewrite <-list_fmap_compose. by apply list_fmap_ext.
Qed.

Lemma decorate_snd (d : list (Q * JSON)) (l : list JSON) :
  d ≡ₚ decorate <$> l → d = decorate <$> d.*2.
Proof.
  intros Hp.
  assert (Forall (λ p, p = decorate p.2) d) as Hd.
  { rewrite Hp. apply Forall_fmap, Forall_true. done. }
  clear Hp. induction Hd as [|p d Hp' _ IH]; [done|].
  rewrite !fmap_cons. by f_equal.
Qed.

Lemma Sorted_fmap_inv {A B} (R : relation B) (R' : relation A) (f : A → B)
    (l : list A) :
  (∀ x y, R (f x) (f y) → R' x y) → Sorted R (f <$> l) → Sorted R' l.
Proof.
  intros HR. induction l as [|x l IH]; [constructor|].
  rewrite fmap_cons. intros [Hl Hx]%Sorted_inv. constructor; [by apply IH|].
  destruct l as [|y l]; constructor. apply HR. by inversion Hx.
Qed.

Lemma filter_fmap {A B} (f : A → B) (P : B → Prop) `{∀ y, Decision (P y)}
    (l : list A) :
  filter P (f <$> l) = f <$> filter (λ x, P (f x)) l.
Proof.
  induction l as [|x l IH]; [done|].
  rewrite fmap_cons, !filter_cons, IH. by destruct (decide (P (f x))).
Qed.

Lemma decorate_fmap_snd (l : list JSON) : (decorate <$> l).*2 = l.
Proof.
  rewrite <-list_fmap_compose. rewrite <-(list_fmap_id l) at 2.
  by apply list_fmap_ext.
Qed.

(** The sort of records with numeric scores: a permutation in descending
    order. *)
Lemma sorted_by_score_desc (l : list JSON) :
  Forall (λ x, is_Some (num_score x)) l →
  let l' := (sort_desc Qltb (decorate <$> l)).*2 in
  sorted_by_score l = inr l'
  ∧ l' ≡ₚ l
  ∧ Sorted (λ x y, (score_of y <= score_of x)%Q) l'
  ∧ sort_desc Qltb (decorate <$> l) = decorate <$> l'.
Proof.
  intros Hnum l'. unfold l'. set (sd := sort_desc Qltb (decorate <$> l)).
  assert (sd ≡ₚ decorate <$> l) as Hperm by apply sort_desc_Permutation.
  assert (sd = decorate <$> sd.*2) as Hsd by by eapply decorate_snd.
  split; [by apply sorted_by_score_num|].
  split; [by rewrite Hperm, decorate_fmap_snd|]. split; [|done].
  apply (Sorted_fmap_inv (not_less Qltb) _ decorate).
  - intros x y. unfold not_less. simpl. by rewrite Qltb_false.
  - rewrite <-Hsd. apply sort_desc_Sorted, Qltb_asym.
Qed.

(** C7 (as amended). On results whose scores are all finite numbers, the
    final sort returns a permutation of the list in descending order of
    score, strictly descending when no two scores are equal, in which the
    results of each score are in the order they had in the list. *)
Theorem sorted_by_score_stable (l : list JSON) :
  Forall (λ x, is_Some (num_score x)) l →
  ∃ l',
    sorted_by_score l = inr l'
    ∧ l' ≡ₚ l
    ∧ Sorted (λ x y, (score_of y <= score_of x)%Q) l'
    ∧ ((∀ i j x y, l !! i = Some x → l !! j = Some y → i ≠ j →
          ¬ (score_of x == score_of y)%Q) →
       Sorted (λ x y, (score_of y < score_of x)%Q) l')
    ∧ ∀ q, filter (λ x, (score_of x == q)%Q) l'
           = filter (λ x, (score_of x == q)%Q) l.
Proof.
  intros Hnum.
  destruct (sorted_by_score_desc l Hnum) as (Hrun & Hperm & Hsorted & Hsd).
  eexists. split; [exact Hrun|]. split; [done|]. split; [done|]. split.
  - intros Hdistinct.
    apply (Sorted_NoDup_strict _ _ (λ x, Qred (score_of x)) _) with (2 := Hsorted).
    + intros x y Hle Hne. apply Qle_lteq in Hle as [Hlt|Heq]; [done|].
      destruct Hne. symmetry. by apply Qred_complete.
    + rewrite Hperm. apply NoDup_alt. intros i j v.
      rewrite !list_lookup_fmap, !fmap_Some.
      intros (x & Hx & ->) (y & Hy & Heq%Qred_eq_iff).
      destruct (decide (i = j)) as [|Hij]; [done|].
      by destruct (Hdistinct i j x y Hx Hy Hij).
  - intros q.
    assert (filter (λ p : Q * JSON, (p.1 == q)%Q)
              (sort_desc Qltb (decorate <$> l))
            = filter (λ p : Q * JSON, (p.1 == q)%Q) (decorate <$> l)) as Hf.
    { apply sort_desc_filter. intros y z Hy Hz.
      apply Qltb_false. rewrite Hy, Hz. apply Qle_refl. }
    rewrite Hsd in Hf. rewrite !(filter_fmap decorate) in Hf. simpl in Hf.
    apply (f_equal (fmap snd)) in Hf.
    by rewrite !decorate_fmap_snd in Hf.
Qed.

Lemma sorted_by_score_stable_witness :
  ∃ l',
    sorted_by_score three_scored = inr l'
    ∧ l' ≡ₚ three_scored
    ∧ Sorted (λ x y, (score_of y <= score_of x)%Q) l'
    ∧ filter (λ x, (score_of x == 80)%Q) l'
      = [scored "A" 80 "bien"; scored "C" 80 "bien aussi"].
Proof.
  destruct (sorted_by_score_stable three_scored)
    as (l' & Hl' & Hperm & Hsorted & _ & Hstable).
  - repeat constructor; by eexists.
  - exists l'. split; [done|]. split; [done|]. split; [done|]. exact (Hstable 80%Q).
Defined.

(** C7, as the specification has it for every list, fails: a score that is
    NaN is neither less nor greater than another, and the sort leaves the
    scores 1, NaN, 2 in this order, which is not descending. *)
Lemma sorted_by_score_nan :
  sorted_by_score nan_scored = inr nan_scored
  ∧ nan_scored !! 0%nat = Some (scored "A" 1 "bas")
  ∧ nan_scored !! 2%nat = Some (scored "B" 2 "haut")
  ∧ (score_of (scored "A" 1 "bas") < score_of (scored "B" 2 "haut"))%Q.
Proof. by vm_compute. Qed.

(** ** Checkpoints *)

(** A list that a format holds whole is what the sink leaves of it. *)
Lemma document_whole (format : Format) (results : list JSON) :
  storable format results →
  document format results = whole_document format results.
Proof.
  destruct format; simpl.
  - by intros ->.
  - intros H. by rewrite writable_prefix_all.
Qed.

(** A call of the sink that returns has written the whole document. *)
Lemma save_results_inr (results : list JSON) (format : Format)
    (t : list event) (u : ()) :
  save_results results format = (t, inr u) →
  t = [WriteFile (output_file format) (whole_document format results);
       LogInfo (ResultsSaved (output_file format))]
  ∧ storable format results.
Proof.
  destruct format; simpl.
  - destruct (forallb _ _); [by intros [= <-]|done].
  - pose proof (writerows_prefix results) as Hrows.
    pose proof (writerows_None results) as Hnone.
    destruct (writerows results) as [rows [e|]]; simpl in *; [done|].
    intros [= <-]. assert (Forall writable results) as Hall by by apply Hnone.
    split; [|done]. subst rows. by rewrite writable_prefix_all.
Qed.

Section Checkpoints.
Variable create : nat → string → string → string → exn + string.
Variable json_loads : string → exn + JSON.
Variable args : Args.

Local Abbreviation name := (output_file (output_format args)).
Local Abbreviation doc := (whole_document (output_format args)).

(** A batch with results: they are appended and the file is rewritten. *)
Lemma rate_limiting_no_write (n i : nat) (tp : list event) (r : exn + ()) :
  rate_limiting args n i = (tp, r) → filter is_write tp = [].
Proof.
  unfold rate_limiting, rate_limit_handler.
  repeat case_bool_decide; by intros [= <- _].
Qed.

Lemma analyze_batch_no_write (cb : list Entity) (bn : nat) (job model : string)
    (ta : list event) (r : exn + JSON) :
  analyze_batch create json_loads cb bn job model = (ta, r) →
  filter is_write ta = [].
Proof.
  rewrite analyze_batch_eq. cbv zeta. repeat case_match; by intros [= <- _].
Qed.

(** A batch with results: they are appended and the file is rewritten. *)
Lemma process_batch_success (n i : nat) (st st' : loop_state)
    (t : list event) (items : list JSON) :
  batch_results create json_loads args (batch_num st) (current_batch st)
    = Some items →
  process_batch create json_loads args n i st = (t, inr st') →
  all_results st' = all_results st ++ items
  ∧ persisted name t = Some (doc (all_results st ++ items)).
Proof.
  unfold batch_results, process_batch. intros Hres H.
  apply bind_inr_inv in H as (t0 & [] & t' & [= <-] & H & ->).
  apply bind_inr_inv in H as (ta & v & t1 & Ha & H & ->).
  apply bind_inr_inv in H as (th & all & t2 & Hh & H & ->).
  apply bind_inr_inv in H as (tp & [] & t3 & Hp & [= <- <-] & ->).
  rewrite Ha in Hres. apply analyze_batch_no_write in Ha.
  apply rate_limiting_no_write in Hp.
  destruct (truthy v); [|done].
  apply bind_inr_inv in Hh as (t4 & an & t5 & [= <- Hg] & Hh & ->).
  apply bind_inr_inv in Hh as (t6 & items' & t7 & [= <- Hit] & Hh & ->).
  apply bind_inr_inv in Hh as (ts & [] & t8 & Hs & [= <- <-] & ->).
  rewrite Hg in Hres. simpl in Hres. rewrite Hit in Hres.
  injection Hres as <-. apply save_results_inr in Hs as [-> _].
  split; [done|]. rewrite !persisted_app. simpl persisted at 1.
  rewrite (persisted_no_write _ tp) by done. simpl.
  by rewrite decide_True.
Qed.

(** A batch without results: nothing is appended, nothing is written. *)
Lemma process_batch_no_success (n i : nat) (st st' : loop_state)
    (t : list event) :
  batch_results create json_loads args (batch_num st) (current_batch st)
    = None →
  process_batch create json_loads args n i st = (t, inr st') →
  all_results st' = all_results st ∧ filter is_write t = [].
Proof.
  unfold batch_results, process_batch. intros Hres H.
  apply bind_inr_inv in H as (t0 & [] & t' & [= <-] & H & ->).
  apply bind_inr_inv in H as (ta & v & t1 & Ha & H & ->).
  apply bind_inr_inv in H as (th & all & t2 & Hh & H & ->).
  apply bind_inr_inv in H as (tp & [] & t3 & Hp & [= <- <-] & ->).
  rewrite Ha in Hres. apply analyze_batch_no_write in Ha.
  apply rate_limiting_no_write in Hp.
  destruct (truthy v).
  - apply bind_inr_inv in Hh as (t4 & an & t5 & [= <- Hg] & Hh & ->).
    apply bind_inr_inv in Hh as (t6 & items' & t7 & [= <- Hit] & Hh & ->).
    rewrite Hg in Hres. simpl in Hres. by rewrite Hit in Hres.
  - injection Hh as <- <-. split; [done|].
    rewrite !filter_app, Ha, Hp. done.
Qed.

Lemma any_success_false (k : nat) (bs : list (list Entity)) :
  any_success create json_loads args k bs = false →
  accumulated create json_loads args k bs = [].
Proof.
  revert k. induction bs as [|b bs IH]; intros k; [done|]. simpl.
  intros [Hb Hbs]%orb_false_elim. rewrite (IH _ Hbs), app_nil_r.
  apply bool_decide_eq_false in Hb.
  destruct (batch_results _ _ _ _ _); [|done]. by destruct Hb.
Qed.

(** After the batches [bs], the results are those of before followed by
    those of the successful batches, and they are in the file if a batch
    was successful. *)
Lemma process_batches_accumulated (n : nat) (bs : list (list Entity))
    (st st' : loop_state) (done : nat) (t : list event) :
  process_batches create json_loads args n st done bs = (t, inr st') →
  all_results st'
  = all_results st ++ accumulated create json_loads args (batch_num st) bs
  ∧ persisted name t
    = if any_success create json_loads args (batch_num st) bs
      then Some (doc (all_results st')) else None.
Proof.
  revert st done t. induction bs as [|b bs IH]; intros st done t H.
  { injection H as <- <-. by rewrite app_nil_r. }
  simpl in H.
  apply bind_inr_inv in H as (t1 & st1 & t2 & H1 & H2 & ->).
  pose proof (process_batch_inr _ _ _ _ _ _ _ _ H1) as [_ Hbn].
  apply IH in H2 as [Hall Hfile]. simpl in Hbn. rewrite Hbn in Hall, Hfile.
  rewrite persisted_app, Hfile. simpl.
  destruct (batch_results create json_loads args (batch_num st) b)
    as [items|] eqn:Hb.
  - apply (process_batch_success _ _ _ _ _ items) in H1 as [Hall1 Hfile1];
      [|done].
    simpl in Hall1. rewrite Hall, Hall1, <-app_assoc. split; [done|].
    rewrite bool_decide_eq_true_2 by done. simpl.
    destruct (any_success _ _ _ _ bs) eqn:Hany; [done|].
    rewrite Hfile1. by rewrite (any_success_false _ _ Hany), app_nil_r.
  - apply process_batch_no_success in H1 as [Hall1 Hw1]; [|done].
    simpl in Hall1. rewrite Hall, Hall1. split; [done|].
    rewrite bool_decide_eq_false_2 by by intros [? ?]. simpl.
    rewrite (persisted_no_write _ t1) by done.
    by destruct (any_success _ _ _ _ bs).
Qed.

Lemma process_batches_app (n : nat) (bs1 bs2 : list (list Entity))
    (st : loop_state) (done : nat) :
  process_batches create json_loads args n st done (bs1 ++ bs2)
  = process_batches create json_loads args n st done bs1 ≫= λ st1,
    process_batches create json_loads args n st1
      (done + length (concat bs1)) bs2.
Proof.
  revert st done. induction bs1 as [|b bs1 IH]; intros st done.
  { simpl. rewrite Nat.add_0_r.
    by destruct (process_batches _ _ _ _ _ _ _) as [t r]. }
  cbn [app process_batches concat].
  destruct (process_batch _ _ _ _ _ _) as [t1 [e|st1]]; [done|].
  rewrite !bind_inr, IH. rewrite length_app, Nat.add_assoc.
  destruct (process_batches _ _ _ _ _ _ bs1) as [t2 [e|st2]]; [done|].
  rewrite !bind_inr. cbn [fst snd]. rewrite bind_inr. by rewrite app_assoc.
Qed.

End Checkpoints.

Lemma score_keys_length (l keys : list JSON) :
  score_keys l = inr keys → length keys = length l.
Proof.
  revert keys. induction l as [|x l IH]; intros keys; simpl.
  - by intros [= <-].
  - destruct (getitem x "score") as [e|k]; [done|]. simpl.
    destruct (score_keys l) as [e|ks]; [done|]. simpl.
    intros [= <-]. simpl. by rewrite (IH ks).
Qed.

(** Whatever the keys, [sorted] returns a permutation. *)
Lemma sorted_by_score_Permutation (l l' : list JSON) :
  sorted_by_score l = inr l' → l' ≡ₚ l.
Proof.
  unfold sorted_by_score.
  destruct (score_keys l) as [e|keys] eqn:Hk; [done|]. simpl.
  apply score_keys_length in Hk.
  case_bool_decide; [by intros [= <-]|].
  destruct (mapM as_number keys) as [nums|] eqn:Hn.
  - apply length_mapM in Hn. intros [= <-].
    rewrite sort_desc_Permutation. by rewrite snd_zip by lia.
  - destruct (mapM as_string keys) as [strs|] eqn:Hs; [|done].
    apply length_mapM in Hs. intros [= <-].
    rewrite sort_desc_Permutation. by rewrite snd_zip by lia.
Qed.

Lemma log_result_no_write (result : JSON) :
  filter is_write (log_result result).1 = [].
Proof.
  unfold log_result.
  destruct (getitem result "company_name") as [e|v1]; [done|].
  destruct (getitem result "score") as [e|v2]; [done|].
  by destruct (getitem result "explanation") as [e|v3].
Qed.

Lemma for_each_log_result_no_write (l : list JSON) :
  filter is_write (for_each log_result l).1 = [].
Proof.
  induction l as [|x l IH]; [done|]. cbn [for_each].
  pose proof (log_result_no_write x) as Hx.
  destruct (log_result x) as [tx [e|[]]]; [done|]. rewrite bind_inr.
  simpl in *. by rewrite filter_app, Hx, IH.
Qed.

Lemma sort_and_display_inr (args : Args) (all : list JSON) (t : list event) :
  sort_and_display args all = (t, inr ()) →
  ∃ sorted_results,
    sorted_by_score all = inr sorted_results
    ∧ persisted (output_file (output_format args)) t
      = Some (whole_document (output_format args) sorted_results).
Proof.
  unfold sort_and_display. intros H.
  apply bind_inr_inv in H as (t0 & sorted & t1 & [= <- Hsort] & H & ->).
  apply bind_inr_inv in H as (ts & [] & t2 & Hs & H & ->).
  apply bind_inr_inv in H as (t3 & [] & t4 & [= <-] & H & ->).
  apply save_results_inr in Hs as [-> _].
  pose proof (for_each_log_result_no_write (take 10 sorted)) as Hw.
  rewrite H in Hw. simpl in Hw.
  exists sorted. split; [done|].
  rewrite !persisted_app. rewrite (persisted_no_write _ t4) by done. simpl.
  by rewrite decide_True.
Qed.

Lemma main_inr_inv create json_loads (api_key : option string) (args : Args)
    (l : list Entity) (t : list event) :
  main create json_loads api_key args (inr l) = (t, inr ()) →
  ∃ t1 st t2,
    process_companies create json_loads args l = (t1, inr st)
    ∧ sort_and_display args (all_results st) = (t2, inr ())
    ∧ t = LogInfo (Loaded (length l)) :: t1 ++ t2.
Proof.
  unfold main. destruct (_ || _); [done|].
  destruct (validate_job_title (job args)) as [e|j]; [done|].
  rewrite bind_lift_inr. unfold try_except.
  destruct (_ ≫= _) as [tb [e|[]]] eqn:Hb; [done|]. intros [= <-].
  rewrite bind_lift_inr in Hb.
  apply bind_inr_inv in Hb as (t0 & [] & t' & [= <-] & Hb & ->).
  apply bind_inr_inv in Hb as (t1 & st & t2 & H1 & H2 & ->).
  by exists t1, st, t2.
Qed.

Lemma any_success_lookup create json_loads (args : Args) (k0 k : nat)
    (bs : list (list Entity)) (b : list Entity) :
  bs !! k = Some b →
  is_Some (batch_results create json_loads args (k0 + k) b) →
  any_success create json_loads args k0 bs = true.
Proof.
  revert k0 k. induction bs as [|b' bs IH]; intros k0 k Hb Hs; [done|].
  simpl. destruct k as [|k]; simpl in Hb.
  - injection Hb as ->. rewrite Nat.add_0_r in Hs.
    by rewrite bool_decide_eq_true_2.
  - rewrite (IH (S k0) k); [apply orb_true_r|done|].
    by replace (S k0 + k)%nat with (k0 + S k)%nat by lia.
Qed.

(** C6 (as amended). The run of the loop passes through the state after
    each batch. After a batch that was processed successfully, the output
    file holds the whole document of the results of the successful batches
    so far, in the order of the batches (the list itself, or the header and
    the row of every result), which are the results accumulated. After the
    final step of a completed run it holds the whole document of what the
    sort returns of the results of all successful batches: a permutation of
    them, in descending order of score when all scores are finite
    numbers. *)
Theorem checkpoint_monotonicity create json_loads (args : Args)
    (l : list Entity) :
  let bs := batches_of (batch_size args) l in
  let name := output_file (output_format args) in
  let doc := whole_document (output_format args) in
  let results k := accumulated create json_loads args 1 (take k bs) in
  (∀ k,
     process_companies create json_loads args l
     = process_batches create json_loads args (length l) initial_state 0
         (take k bs) ≫= λ st,
       process_batches create json_loads args (length l) st
         (length (concat (take k bs))) (drop k bs))
  ∧ (∀ k b t st,
       bs !! k = Some b →
       is_Some (batch_results create json_loads args (S k) b) →
       process_batches create json_loads args (length l) initial_state 0
         (take (S k) bs) = (t, inr st) →
       all_results st = results (S k)
       ∧ persisted name t = Some (doc (results (S k))))
  ∧ (∀ api_key t,
       main create json_loads api_key args (inr l) = (t, inr ()) →
       ∃ sorted_results,
         sorted_by_score (results (length bs)) = inr sorted_results
         ∧ sorted_results ≡ₚ results (length bs)
         ∧ (Forall (λ x, is_Some (num_score x)) (results (length bs)) →
            Sorted (λ x y, (score_of y <= score_of x)%Q) sorted_results)
         ∧ persisted name t = Some (doc sorted_results)).
Proof.
  intros bs name doc results. subst name doc results. cbv beta.
  split; [|split].
  - intros k. rewrite process_companies_batches. fold bs.
    rewrite <-(take_drop k bs) at 1. by rewrite process_batches_app.
  - intros k b t st Hb Hs H.
    apply process_batches_accumulated in H as [Hall Hfile]. simpl in Hall, Hfile.
    split; [done|]. rewrite Hfile, Hall.
    rewrite (any_success_lookup _ _ _ 1 k _ b); [done| |done].
    rewrite lookup_take_lt by lia. done.
  - intros api_key t (t1 & st & t2 & H1 & H2 & ->)%main_inr_inv.
    rewrite process_companies_batches in H1. fold bs in H1.
    apply process_batches_accumulated in H1 as [Hall _]. simpl in Hall.
    apply sort_and_display_inr in H2 as (sorted & Hsort & Hfile).
    rewrite firstn_all, <-Hall.
    exists sorted. split; [done|]. split; [by apply sorted_by_score_Permutation|].
    split.
    + intros Hnum. destruct (sorted_by_score_desc _ Hnum) as (Hrun & _ & Hs & _).
      rewrite Hsort in Hrun. by injection Hrun as ->.
    + change (LogInfo (Loaded (length l)) :: t1 ++ t2)
        with ([LogInfo (Loaded (length l))] ++ t1 ++ t2).
      rewrite !persisted_app. by rewrite Hfile.
Qed.

Lemma checkpoint_monotonicity_witness :
  persisted (output_file csv)
    (process_batches client_mixed stub_json_loads (args_of 2 csv) 5
       initial_state 0 (batches_of 2 five_companies)).1
  = Some (CsvDoc [[JStr "company_name"; JStr "score"; JStr "explanation"];
                  [JStr "A"; JNum 80; JStr "bien"];
                  [JStr "B"; JNum 95; JStr "top"];
                  [JStr "E"; JNum 90; JStr "bon"]]).
Proof.
  destruct (process_batches client_mixed stub_json_loads (args_of 2 csv) 5
              initial_state 0 (batches_of 2 five_companies))
    as [t [e|st]] eqn:H; [by vm_compute in H|].
  destruct (checkpoint_monotonicity client_mixed stub_json_loads
              (args_of 2 csv) five_companies) as (_ & Hk & _).
  destruct (Hk 2%nat [company "E" "e"] t st eq_refl) as [_ Hfile];
    [by eexists|exact H|exact Hfile].
Defined.

(** C6, as the specification has it, fails in its second half: when the
    service answers with the scores 1, NaN, 2, the run completes and the
    final file holds the results in this order, the score 1 before the
    score 2. *)
Lemma final_file_not_descending :
  (main (client_canned text_nan) stub_json_loads (Some "sk")
     (args_of 30 json) (inr [company "A" "a"])).2 = inr ()
  ∧ persisted (output_file json)
      (main (client_canned text_nan) stub_json_loads (Some "sk")
         (args_of 30 json) (inr [company "A" "a"])).1
    = Some (JsonDoc [scored "A" 1 "bas"; scored_nan; scored "B" 2 "haut"])
  ∧ (score_of (scored "A" 1 "bas") < score_of (scored "B" 2 "haut"))%Q.
Proof. by vm_compute. Qed.
(** * Part IV: further properties of the code *)

(** ** Text *)

Lemma string_app_nil_r (s : string) : s +:+ "" = s.
Proof.
  induction s as [|c s IH]; [done|]. by rewrite Text.app_cons, IH.
Qed.

Lemma string_app_assoc (s1 s2 s3 : string) :
  (s1 +:+ s2) +:+ s3 = s1 +:+ s2 +:+ s3.
Proof.
  induction s1 as [|c s1 IH]; [done|]. by rewrite !Text.app_cons, IH.
Qed.

Lemma string_length_app (s1 s2 : string) :
  String.length (s1 +:+ s2) = (String.length s1 + String.length s2)%nat.
Proof.
  induction s1 as [|c s1 IH]; [done|]. rewrite Text.app_cons. simpl.
  by rewrite IH.
Qed.

(** ** The response extractor *)

Section ExtractorFacts.
Import Text.

(** The extractor on a text, by the outcome of the search. *)
Lemma extract_cases (s : string) :
  (∃ pre, first_block s pre (extract_json_from_response s))
  ∨ ((∀ pre inner post, ¬ fenced s pre inner post)
     ∧ extract_json_from_response s = s).
Proof.
  unfold extract_json_from_response.
  destruct (re_search s) as [g|] eqn:Hs.
  - left. by apply re_search_Some.
  - right. split; [by apply re_search_None|done].
Qed.

Lemma extract_of_first_block (s pre inner : string) :
  first_block s pre inner → extract_json_from_response s = inner.
Proof.
  intros Hfb. destruct (extract_cases s) as [[pre' Hfb']|[Hno _]].
  - by destruct (first_block_unique _ _ _ _ _ Hfb' Hfb).
  - destruct Hfb as [[post Hf] _]. by destruct (Hno _ _ _ Hf).
Qed.

(** The content of the first block holds no closing fence. *)
Lemma first_block_no_close (s pre inner a b : string) :
  first_block s pre inner → inner ≠ a +:+ fence_close +:+ b.
Proof.
  intros [[post Hf] Hmin] ->.
  assert (fenced s pre a (b +:+ fence_close +:+ post)) as Hf'.
  { unfold fenced in *. rewrite Hf. by rewrite !string_app_assoc. }
  destruct (Hmin _ _ _ Hf') as [_ Hlen]. specialize (Hlen eq_refl).
  rewrite !string_length_app in Hlen. unfold fence_close in Hlen at 1.
  simpl in Hlen. lia.
Qed.

Lemma extract_of_content (s pre inner : string) :
  first_block s pre inner → extract_json_from_response inner = inner.
Proof.
  intros Hfb. destruct (extract_cases inner) as [[pre' [[post' Hf] _]]|[_ H]];
    [|done].
  destruct (first_block_no_close s pre inner
              (pre' +:+ fence_open +:+ extract_json_from_response inner) post' Hfb).
  unfold fenced in Hf. etransitivity; [exact Hf|].
  by rewrite !string_app_assoc.
Qed.

End ExtractorFacts.

(** X1. Extracting twice is extracting once: what the extractor returns
    holds no fenced block of its own. *)
Theorem extract_json_from_response_idempotent (s : string) :
  extract_json_from_response (extract_json_from_response s)
  = extract_json_from_response s.
Proof.
  destruct (extract_cases s) as [[pre Hfb]|[_ H]]; [|by rewrite !H].
  by eapply extract_of_content.
Qed.

(** X2. The extractor returns a part of its input: it adds nothing, and the
    result is no longer than the text. *)
Theorem extract_json_from_response_substring (s : string) :
  (∃ pre post, s = pre +:+ extract_json_from_response s +:+ post)
  ∧ (String.length (extract_json_from_response s) ≤ String.length s)%nat.
Proof.
  assert (∃ pre post, s = pre +:+ extract_json_from_response s +:+ post)
    as (pre & post & Hs).
  { destruct (extract_cases s) as [[pre [[post Hf] _]]|[_ H]].
    - exists (pre +:+ fence_open), (fence_close +:+ post).
      unfold fenced in Hf. etransitivity; [exact Hf|].
      by rewrite !string_app_assoc.
    - exists "", "". by rewrite H, Text.app_nil_l, string_app_nil_r. }
  split; [by eauto|]. rewrite Hs at 2. rewrite !string_length_app. lia.
Qed.

(** ** The batch analyzer *)

Lemma company_texts_lookup (cb : list Entity) (i : nat) (texts : list string) :
  company_texts i cb = inr texts →
  length texts = length cb
  ∧ ∀ k c, cb !! k = Some c →
      ∃ name about,
        c !! "company" = Some name ∧ c !! "about" = Some about
        ∧ texts !! k
          = Some ("Company " +:+ pretty (S (i + k)) +:+ ": " +:+ name
                  +:+ newline +:+ about).
Proof.
  revert i texts. induction cb as [|c0 cb IH]; intros i texts.
  { intros [= <-]. split; [done|]. by intros k c. }
  simpl. unfold company_text.
  destruct (c0 !! "company") as [name|] eqn:Hn; [|done].
  destruct (c0 !! "about") as [about|] eqn:Ha; [|done]. simpl.
  destruct (company_texts (S i) cb) as [e|ts] eqn:Hts; [done|]. simpl.
  intros [= <-]. destruct (IH _ _ Hts) as [Hlen Hk].
  split; [simpl; by rewrite Hlen|]. intros [|k] c; simpl.
  - intros [= <-]. exists name, about. by rewrite Nat.add_0_r.
  - intros Hc. destruct (Hk k c Hc) as (n' & a' & ? & ? & Ht).
    exists n', a'. by rewrite <-Nat.add_succ_comm.
Qed.

Lemma company_texts_missing (cb : list Entity) (i : nat) :
  ¬ Forall has_fields cb →
  ∃ key, company_texts i cb = inl (KeyError key)
         ∧ (key = "company" ∨ key = "about").
Proof.
  revert i. induction cb as [|c cb IH]; intros i Hno.
  { destruct Hno. constructor. }
  simpl. unfold company_text.
  destruct (c !! "company") as [name|] eqn:Hn; [|by eauto].
  destruct (c !! "about") as [about|] eqn:Ha; [|by eauto]. simpl.
  destruct (IH (S i)) as (key & -> & Hkey); [|by eauto].
  intros Hcb. apply Hno. constructor; [|done]. split; by eexists.
Qed.

(** X3. For entities that have a name and a description, the analyzer
    always returns, after one request with the prompt of the batch: when
    the service or the parser raises an exception, it logs one error with
    the batch number and that exception and returns [None]; otherwise it
    logs nothing and returns the value parsed from the extracted text. *)
Theorem analyze_batch_contains_failures create json_loads
    (cb : list Entity) (bn : nat) (job model : string) :
  Forall has_fields cb →
  ∃ texts,
    company_texts 0 cb = inr texts
    ∧ let user := prompt job (join (newline +:+ newline) texts) in
      let request := Request model (system_message job) user (7 # 10) in
      analyze_batch create json_loads cb bn job model
      = match
          create bn model (system_message job) user ≫= λ response_text,
          json_loads (extract_json_from_response response_text)
        with
        | inl e => ([request; LogError (ErrorInBatch bn e)], inr JNull)
        | inr v => ([request], inr v)
        end.
Proof.
  intros [texts Ht]%(company_texts_inr _ 0%nat). exists texts.
  split; [done|]. rewrite analyze_batch_eq, Ht. cbv zeta.
  destruct (create _ _ _ _) as [e|text]; [done|]. simpl.
  by destruct (json_loads _).
Qed.

Lemma analyze_batch_contains_failures_witness :
  analyze_batch client_mixed stub_json_loads
    [company "C" "c"; company "D" "d"] 2 "data engineer" "gpt-4o-mini"
  = ([Request "gpt-4o-mini" (system_message "data engineer")
        (prompt "data engineer"
           (join (newline +:+ newline)
              ["Company 1: C" +:+ newline +:+ "c";
               "Company 2: D" +:+ newline +:+ "d"])) (7 # 10);
      LogError (ErrorInBatch 2 (APIError "Rate limit reached."))],
     inr JNull).
Proof.
  destruct (analyze_batch_contains_failures client_mixed stub_json_loads
              [company "C" "c"; company "D" "d"] 2 "data engineer" "gpt-4o-mini")
    as (texts & Ht & Hrun).
  - repeat constructor; by eexists.
  - rewrite Hrun. injection Ht as <-. reflexivity.
Defined.

(** X4. An entity without a name or without a description makes the
    analyzer raise [KeyError] for that field before any request is made and
    without logging anything: the prompt is rendered outside the [try]. *)
Theorem analyze_batch_missing_field create json_loads
    (cb : list Entity) (bn : nat) (job model : string) :
  ¬ Forall has_fields cb →
  ∃ key,
    analyze_batch create json_loads cb bn job model = ([], inl (KeyError key))
    ∧ (key = "company" ∨ key = "about").
Proof.
  intros (key & Ht & Hkey)%(company_texts_missing _ 0%nat).
  exists key. split; [|done]. by rewrite analyze_batch_eq, Ht.
Qed.

Lemma analyze_batch_missing_field_witness :
  analyze_batch client_mixed stub_json_loads
    [company "A" "a"; {["company" := "B"]}] 1 "data engineer" "gpt-4o-mini"
  = ([], inl (KeyError "about")).
Proof.
  destruct (analyze_batch_missing_field client_mixed stub_json_loads
              [company "A" "a"; {["company" := "B"]}] 1 "data engineer"
              "gpt-4o-mini") as (key & Hrun & _).
  - intros H. apply Forall_cons in H as [_ H]. apply Forall_cons in H as [[_ H] _].
    by destruct H.
  - rewrite Hrun. by vm_compute in Hrun |- *.
Defined.

(** X5. An answer that holds the JSON in a fenced block and the bare JSON
    are analysed alike: the same events, the same result. *)
Theorem analyze_batch_fenced_or_bare create_fenced create_bare json_loads
    (cb : list Entity) (bn : nat) (job model : string)
    (s pre inner : string) :
  first_block s pre inner →
  (∀ m sys u, create_fenced bn m sys u = inr s) →
  (∀ m sys u, create_bare bn m sys u = inr inner) →
  analyze_batch create_fenced json_loads cb bn job model
  = analyze_batch create_bare json_loads cb bn job model.
Proof.
  intros Hfb Hf Hb. rewrite !analyze_batch_eq.
  destruct (company_texts 0 cb) as [e|texts]; [done|]. cbv zeta.
  rewrite Hf, Hb.
  by rewrite (extract_of_first_block _ _ _ Hfb), (extract_of_content _ _ _ Hfb).
Qed.

Lemma analyze_batch_fenced_or_bare_witness :
  analyze_batch (client_canned two_blocks) stub_json_loads
    [company "A" "a"] 1 "data engineer" "gpt-4o-mini"
  = analyze_batch (client_canned "{}") stub_json_loads
      [company "A" "a"] 1 "data engineer" "gpt-4o-mini".
Proof.
  by apply (analyze_batch_fenced_or_bare _ _ _ _ _ _ _ two_blocks "Hi" "{}"
              two_blocks_first_block).
Defined.

(** X6. The prompt lists every entity of the batch once, in order, numbered
    from 1 within the batch, with its name and its description. *)
Theorem company_texts_numbered (cb : list Entity) (texts : list string) :
  company_texts 0 cb = inr texts →
  length texts = length cb
  ∧ ∀ k c, cb !! k = Some c →
      ∃ name about,
        c !! "company" = Some name ∧ c !! "about" = Some about
        ∧ texts !! k
          = Some ("Company " +:+ pretty (S k) +:+ ": " +:+ name
                  +:+ newline +:+ about).
Proof. apply company_texts_lookup. Qed.

Lemma company_texts_numbered_witness :
  length ["Company 1: C" +:+ newline +:+ "c"; "Company 2: D" +:+ newline +:+ "d"]
  = length [company "C" "c"; company "D" "d"].
Proof.
  exact (proj1 (company_texts_numbered [company "C" "c"; company "D" "d"]
                  _ eq_refl)).
Defined.

(** ** Pacing and cost *)

Lemma estimated_cost_full_batches (B k : nat) :
  (1 ≤ B)%nat →
  (estimated_cost (Z.of_nat B) (k * B) == Z.of_nat k # 100)%Q.
Proof.
  intros HB. unfold estimated_cost.
  rewrite Nat2Z.inj_mul, inject_Z_mult.
  assert (¬ (inject_Z (Z.of_nat B) == 0)%Q) as HB0.
  { unfold Qeq. simpl. lia. }
  rewrite Qdiv_mult_l by done.
  unfold Qeq, Qmult, inject_Z. simpl. lia.
Qed.

Section NoZeroDivision.
Variable create : nat → string → string → string → exn + string.
Variable json_loads : string → exn + JSON.
Variable args : Args.

Lemma company_texts_no_zero_division (i : nat) (cb : list Entity) :
  company_texts i cb ≠ inl ZeroDivisionError.
Proof.
  revert i. induction cb as [|c cb IH]; intros i; [done|].
  simpl. unfold company_text. specialize (IH (S i)).
  repeat case_match; simpl; try done. by destruct (company_texts (S i) cb).
Qed.

(** A batch step that does not divide by 0 does not raise
    [ZeroDivisionError], whatever the service and the parser raise. *)
Lemma process_batch_no_zero_division (n i : nat) (st : loop_state) :
  batch_size args ≠ 0 ∨ ¬ (Z.of_nat i < Z.of_nat n - 1) →
  (process_batch create json_loads args n i st).2 ≠ inl ZeroDivisionError.
Proof.
  intros Hi. destruct (rate_limiting_inr args n i Hi) as (tp & Hp & _).
  unfold process_batch. rewrite Hp, analyze_batch_eq.
  pose proof (save_results_no_zero_division) as Hsave.
  destruct (company_texts 0 (current_batch st)) as [e|texts] eqn:Hc.
  { simpl. intros [= ->]. by eapply company_texts_no_zero_division. }
  assert (∀ (ta : list event) (v : JSON),
    (emit (LogInfo (ProcessingBatch (batch_num st) (length (current_batch st))));;
     result ← ((ta, inr v) : M JSON);
     all_results ←
       (if truthy result then
          analyses ← lift (getitem result "analyses");
          items ← lift (iterate analyses);
          let all_results := all_results st ++ items in
          save_results all_results (output_format args);;
          emit (LogInfo (BatchProcessed (batch_num st)));;
          mret all_results
        else mret (all_results st));
     ((tp, inr ()) : M ());;
     mret {| current_batch := []; all_results := all_results;
             batch_num := S (batch_num st) |}).2 ≠ inl ZeroDivisionError) as Hrest.
  { intros ta v. unfold emit. rewrite !bind_inr. simpl.
    destruct (truthy v); [|done].
    destruct (getitem v "analyses") as [e|an] eqn:Hg.
    { simpl. unfold getitem in Hg. repeat case_match; congruence. }
    destruct (iterate an) as [e|items] eqn:Hit.
    { simpl. unfold iterate in Hit. repeat case_match; congruence. }
    specialize (Hsave (all_results st ++ items) (output_format args)).
    destruct (save_results _ _) as [ts [e|[]]]; simpl in *; [congruence|done]. }
  cbv beta iota zeta.
  destruct (create _ _ _ _) as [e|text]; [apply Hrest|].
  destruct (json_loads _); apply Hrest.
Qed.

Lemma process_batches_no_zero_division (n : nat) (bs : list (list Entity))
    (st : loop_state) (d : nat) :
  Forall (λ b, b ≠ []) bs → (d + length (concat bs))%nat = n →
  (batch_size args = 0 → (length bs ≤ 1)%nat) →
  (process_batches create json_loads args n st d bs).2
  ≠ inl ZeroDivisionError.
Proof.
  revert st d. induction bs as [|b bs IH]; intros st d Hne Hn HB; [done|].
  apply Forall_cons in Hne as [Hb Hne]. simpl in Hn. rewrite length_app in Hn.
  assert (1 ≤ length b)%nat by (destruct b; simpl; [done|lia]).
  simpl.
  pose proof (process_batch_no_zero_division n (d + length b - 1)
    {| current_batch := b; all_results := all_results st;
       batch_num := batch_num st |}) as Hstep.
  destruct (process_batch _ _ _ _ _ _) as [t1 [e|st1]].
  - simpl in *. apply Hstep.
    destruct bs as [|b' bs]; [right; simpl in Hn; lia|].
    left. intros H0. specialize (HB H0). simpl in HB. lia.
  - rewrite bind_inr. simpl. apply IH; [done|lia|].
    intros H0. specialize (HB H0). simpl in HB. lia.
Qed.

End NoZeroDivision.

(** X7. Whatever the batch size, 0 included, and whatever the service and
    the parser do, the loop never raises [ZeroDivisionError]: the cost is
    only computed after a batch that was filled up to the batch size. *)
Theorem process_companies_no_zero_division create json_loads (args : Args)
    (l : list Entity) :
  (process_companies create json_loads args l).2 ≠ inl ZeroDivisionError.
Proof.
  rewrite process_companies_batches.
  apply process_batches_no_zero_division.
  - apply batches_of_nonempty.
  - by rewrite concat_batches_of.
  - intros ->. apply batches_of_zero.
Qed.

Lemma filter_cost_pacing (t : list event) :
  filter is_cost (filter is_pacing t) = filter is_cost t.
Proof.
  induction t as [|ev t IH]; [done|]. rewrite !filter_cons.
  destruct ev as [[]| | | |]; simpl; rewrite ?filter_cons; simpl; by rewrite IH.
Qed.

Lemma pacing_trace_cons (Bz : Z) (k d : nat) (b : list Entity)
    (bs : list (list Entity)) :
  bs ≠ [] →
  pacing_trace Bz k d (b :: bs)
  = LogInfo (ProcessingBatch k (length b))
    :: LogInfo (EstimatedCost (estimated_cost Bz (d + length b)))
    :: Sleep 2 :: pacing_trace Bz (S k) (d + length b) bs.
Proof. by destruct bs. Qed.

Lemma pacing_trace_cost (B : nat) (l : list Entity) (k : nat) :
  (1 ≤ B)%nat → (1 ≤ k)%nat →
  Forall2 (λ ev j, ∃ q, ev = LogInfo (EstimatedCost q)
                        ∧ (q == Z.of_nat j # 100)%Q)
    (filter is_cost
       (pacing_trace (Z.of_nat B) k ((k - 1) * B) (batches B l)))
    (seq k (length (batches B l) - 1)).
Proof.
  intros HB. remember (length l) as N eqn:HN. revert l HN k.
  induction N as [N IH] using lt_wf_ind. intros l -> k Hk.
  destruct (decide (l = [])) as [->|Hl].
  { rewrite batches_nil by done. constructor. }
  rewrite batches_unfold by done.
  assert (length (drop B l) < length l)%nat as Hlt.
  { rewrite length_drop. destruct l; simpl in *; [done|lia]. }
  specialize (IH _ Hlt (drop B l) eq_refl (S k) ltac:(lia)).
  destruct (decide (drop B l = [])) as [Hd|Hd].
  { rewrite Hd, batches_nil by done. simpl. constructor. }
  assert (batches B (drop B l) ≠ []) as Hbs by by rewrite batches_unfold.
  assert (length (take B l) = B) as Hb.
  { rewrite length_take. apply Nat.min_l.
    destruct (decide (B ≤ length l)%nat); [done|].
    destruct Hd. apply drop_ge. lia. }
  rewrite pacing_trace_cons, Hb by done.
  replace ((k - 1) * B + B)%nat with (k * B)%nat by nia.
  replace (S k - 1)%nat with k in IH by lia.
  replace (length (take B l :: batches B (drop B l)) - 1)%nat
    with (S (length (batches B (drop B l)) - 1)).
  2:{ simpl. destruct (batches B (drop B l)); simpl; [done|lia]. }
  rewrite !filter_cons. simpl. constructor; [|exact IH].
  eexists. split; [done|]. by apply estimated_cost_full_batches.
Qed.

(** X8. In a completed run with a batch size of 1 or more, the cost logged
    after the [k]-th batch is [k] hundredths: the estimate counts 0.01 per
    batch sent, whatever the batch size, and there is one cost line for
    every batch but the last. *)
Theorem process_companies_cost create json_loads (args : Args)
    (l : list Entity) (t : list event) (st : loop_state) :
  1 ≤ batch_size args →
  process_companies create json_loads args l = (t, inr st) →
  Forall2 (λ ev k, ∃ q, ev = LogInfo (EstimatedCost q)
                        ∧ (q == Z.of_nat k # 100)%Q)
    (filter is_cost t)
    (seq 1 (length (batches_of (batch_size args) l) - 1)).
Proof.
  intros HB H. rewrite process_companies_batches in H.
  eapply process_batches_pacing in H;
    [|apply batches_of_nonempty|by rewrite concat_batches_of].
  rewrite <-filter_cost_pacing, H. simpl. unfold batches_of.
  rewrite decide_True by done.
  pose proof (pacing_trace_cost (Z.to_nat (batch_size args)) l 1) as Hc.
  rewrite Z2Nat.id in Hc by lia. apply Hc; lia.
Qed.

Lemma process_companies_cost_witness :
  Forall2 (λ ev k, ∃ q, ev = LogInfo (EstimatedCost q)
                        ∧ (q == Z.of_nat k # 100)%Q)
    (filter is_cost
       (process_companies client_mixed stub_json_loads (args_of 2 json)
          five_companies).1)
    [1; 2]%nat.
Proof.
  destruct (process_companies client_mixed stub_json_loads (args_of 2 json)
              five_companies) as [t [e|st]] eqn:H; [by vm_compute in H|].
  refine (process_companies_cost client_mixed stub_json_loads (args_of 2 json)
            five_companies t st _ H).
  done.
Defined.

(** ** The result sink *)

(** The sink first writes to the file of its format, and what it leaves
    there is the document of the list. *)
Lemma save_results_events (results : list JSON) (format : Format) :
  ∃ rest,
    (save_results results format).1
    = WriteFile (output_file format) (document format results) :: rest
    ∧ filter is_write rest = [].
Proof.
  destruct format; simpl.
  - destruct (forallb _ _); by eexists.
  - pose proof (writerows_prefix results) as Hrows.
    destruct (writerows results) as [rows [e|]]; simpl in *; subst rows;
      by eexists.
Qed.

Lemma save_results_storable (results : list JSON) (format : Format) :
  (save_results results format).2 = inr () ↔ storable format results.
Proof.
  destruct format; simpl.
  - by destruct (forallb _ _).
  - rewrite <-writerows_None.
    by destruct (writerows results) as [rows [e|]].
Qed.

Lemma output_file_inj (format format' : Format) :
  output_file format = output_file format' → format = format'.
Proof. by destruct format, format'. Qed.

Lemma persisted_write_other (name name' : string) (c : file_content)
    (t rest : list event) :
  name' ≠ name → filter is_write rest = [] →
  persisted name (t ++ WriteFile name' c :: rest) = persisted name t.
Proof.
  intros Hne Hrest. rewrite persisted_app.
  change (WriteFile name' c :: rest) with ([WriteFile name' c] ++ rest).
  rewrite persisted_app, (persisted_no_write _ rest) by done. simpl.
  by rewrite decide_False.
Qed.

(** X9. Every call of the sink replaces the content of the file of its
    format and leaves the file of the other format as it was. When the
    format holds the list whole (JSON: every string can be encoded; CSV:
    the keys of every record are among the three field names and the strings
    among its cells can be encoded), the file then holds the whole document
    and the call returns. Otherwise the call raises, and the file holds what
    was written before: the JSON text cut at the first string that cannot be
    encoded, or the header and the rows of the records before the first that
    cannot be written. *)
Theorem save_results_overwrites (t : list event) (results : list JSON)
    (format : Format) :
  persisted (output_file format) (t ++ (save_results results format).1)
  = Some (if decide (storable format results)
          then whole_document format results
          else match format with
               | json => JsonCut results
               | csv =>
                   CsvDoc (header :: (row_of <$> writable_prefix results))
               end)
  ∧ ((save_results results format).2 = inr () ↔ storable format results)
  ∧ ∀ format', format' ≠ format →
      persisted (output_file format') (t ++ (save_results results format).1)
      = persisted (output_file format') t.
Proof.
  destruct (save_results_events results format) as (rest & Hev & Hrest).
  rewrite Hev. split; [|split].
  - rewrite persisted_app.
    change (WriteFile ?n ?c :: rest) with ([WriteFile n c] ++ rest).
    rewrite persisted_app, (persisted_no_write _ rest) by done. simpl.
    rewrite decide_True by done. f_equal.
    destruct (decide (storable format results)) as [Hs|Hs].
    + by apply document_whole.
    + destruct format; simpl in *; [|done].
      by destruct (forallb json_encodable results).
  - apply save_results_storable.
  - intros format' Hne. apply persisted_write_other; [|done].
    intros Heq. by apply output_file_inj in Heq.
Qed.

(** X10. What stops the CSV sink is the first record that cannot be
    written: a record that is no mapping raises [AttributeError], a
    mapping with a key outside the three field names raises [ValueError],
    and a mapping of these fields with a string that cannot be encoded
    among its cells raises [UnicodeEncodeError]. The JSON sink raises only
    [UnicodeEncodeError], and only when a string of the list cannot be
    encoded. *)
Theorem save_results_raises (results : list JSON) :
  (∀ before r after,
     results = before ++ r :: after →
     Forall writable before → ¬ writable r →
     ∃ e,
       (save_results results csv).2 = inl e
       ∧ ((∀ fields, r ≠ JObj fields) → ∃ m, e = AttributeError m)
       ∧ (∀ fields, r = JObj fields →
            ¬ Forall (λ k, k ∈ fieldnames) fields.*1 → ∃ m, e = ValueError m)
       ∧ (three_fields r → e = UnicodeEncodeError))
  ∧ (∀ e, (save_results results json).2 = inl e →
       e = UnicodeEncodeError ∧ forallb json_encodable results = false).
Proof.
  split.
  - intros before r after -> Hb Hr. unfold save_results.
    rewrite writerows_app by done. cbn [writerows].
    destruct (dict_to_list r) as [e|row] eqn:Hd.
    + exists e. split; [done|]. split; [|split].
      * intros Hno. destruct r as [| | | | | |fields]; simpl in Hd;
          try (injection Hd as <-; by eexists). by destruct (Hno fields).
      * intros fields -> Hf.
        destruct (dict_to_list_extra_field fields Hf) as [m Hm].
        rewrite Hm in Hd. injection Hd as <-. by eexists.
      * intros Hf. by rewrite (dict_to_list_three_fields r Hf) in Hd.
    + apply dict_to_list_inr in Hd as [Hf ->].
      destruct (row_encodable (row_of r)) eqn:He; [by destruct Hr|].
      exists UnicodeEncodeError. split; [done|]. split; [|split].
      * intros Hno. destruct Hf as (fields & -> & _). by destruct (Hno fields).
      * intros fields -> Hno. destruct Hf as (fields' & [= <-] & Hf). done.
      * done.
  - intros e. simpl. destruct (forallb json_encodable results); [done|].
    by intros [= <-].
Qed.

(** ** The final sort, on any scores *)

Lemma score_keys_inr (l keys : list JSON) :
  score_keys l = inr keys → Forall2 (λ x k, getitem x "score" = inr k) l keys.
Proof.
  revert keys. induction l as [|x l IH]; intros keys; simpl.
  - intros [= <-]. constructor.
  - destruct (getitem x "score") as [e|k] eqn:Hk; [done|]. simpl.
    destruct (score_keys l) as [e|ks]; [done|]. simpl.
    intros [= <-]. constructor; [done|by apply IH].
Qed.

Lemma score_keys_inl (l : list JSON) :
  ¬ Forall has_score l →
  ∃ e, score_keys l = inl e
       ∧ (e = KeyError "score" ∨ ∃ m, e = TypeError m).
Proof.
  induction l as [|x l IH]; intros Hno.
  { destruct Hno. constructor. }
  simpl. destruct (getitem x "score") as [e|k] eqn:Hk.
  - exists e. split; [done|]. unfold getitem in Hk.
    repeat case_match; simplify_eq; eauto.
  - simpl. destruct IH as (e & -> & He); [|by eauto].
    intros Hl. apply Hno. constructor; [by exists k|done].
Qed.

(** X11. Whenever the final sort returns, it returns a permutation of the
    results, and every result is a mapping with a score. *)
Theorem sorted_by_score_returns (l l' : list JSON) :
  sorted_by_score l = inr l' → l' ≡ₚ l ∧ Forall has_score l.
Proof.
  intros H. split; [by apply sorted_by_score_Permutation|].
  unfold sorted_by_score in H.
  destruct (score_keys l) as [e|keys] eqn:Hk; [done|].
  apply score_keys_inr in Hk. clear H.
  induction Hk as [|x k l keys Hx _ IH]; constructor; [by exists k|done].
Qed.

Lemma sorted_by_score_returns_witness :
  [scored "B" 95 "top"; scored "A" 80 "bien"; scored "C" 80 "bien aussi"]
  ≡ₚ three_scored.
Proof.
  exact (proj1 (sorted_by_score_returns three_scored _ eq_refl)).
Defined.

(** X12. One result without a score, or that is no mapping, makes the final
    sort raise, [KeyError] for the missing score or [TypeError], even when
    it is the only result: the keys are taken before anything is compared. *)
Theorem sorted_by_score_missing_score (l : list JSON) :
  ¬ Forall has_score l →
  ∃ e, sorted_by_score l = inl e
       ∧ (e = KeyError "score" ∨ ∃ m, e = TypeError m).
Proof.
  intros (e & He & Hkind)%score_keys_inl. exists e. split; [|done].
  unfold sorted_by_score. by rewrite He.
Qed.

Lemma sorted_by_score_missing_score_witness :
  sorted_by_score [JObj [("company_name", JStr "A")]] = inl (KeyError "score").
Proof.
  destruct (sorted_by_score_missing_score [JObj [("company_name", JStr "A")]])
    as (e & He & _).
  - intros H. apply Forall_cons in H as [[k Hk] _]. done.
  - rewrite He. by vm_compute in He |- *.
Defined.

Lemma mapM_as_number_None (keys : list JSON) (s : string) :
  JStr s ∈ keys → mapM as_number keys = None.
Proof.
  intros Hin. apply mapM_None, Exists_exists. by exists (JStr s).
Qed.

Lemma mapM_as_string_None (keys : list JSON) (k : JSON) (n : number) :
  k ∈ keys → as_number k = Some n → mapM as_string keys = None.
Proof.
  intros Hin Hq. apply mapM_None, Exists_exists. exists k. split; [done|].
  by destruct k.
Qed.

Lemma score_keys_has_score (l : list JSON) :
  Forall has_score l →
  ∃ keys, score_keys l = inr keys
          ∧ Forall2 (λ x k, getitem x "score" = inr k) l keys.
Proof.
  intros H. destruct (score_keys l) as [e|keys] eqn:Hk.
  - exfalso. revert e Hk.
    induction H as [|x l [k Hx] _ IH]; intros e Hk; [done|]. simpl in Hk.
    rewrite Hx in Hk. simpl in Hk.
    destruct (score_keys l) as [e'|ks]; [by eapply IH|done].
  - exists keys. split; [done|]. by apply score_keys_inr.
Qed.

Lemma Forall2_elem_of_l {A B} (R : A → B → Prop) (l : list A) (k : list B)
    (x : A) :
  Forall2 R l k → x ∈ l → ∃ y, y ∈ k ∧ R x y.
Proof.
  intros H [i Hi]%list_elem_of_lookup.
  destruct (Forall2_lookup_l _ _ _ _ _ H Hi) as (y & Hy & HR).
  exists y. split; [|done]. by eapply list_elem_of_lookup_2.
Qed.

Lemma two_elements {A} (l : list A) (x y : A) :
  x ∈ l → y ∈ l → x ≠ y → (2 ≤ length l)%nat.
Proof.
  destruct l as [|a [|b l]]; simpl; [by intros ?%elem_of_nil| |lia].
  intros ->%list_elem_of_singleton ->%list_elem_of_singleton. done.
Qed.

(** X13. When one result has a number for score and another a string, the
    final sort raises [TypeError]: numbers and strings are not compared. *)
Theorem sorted_by_score_mixed (l : list JSON) (x y : JSON) :
  Forall has_score l → x ∈ l → y ∈ l →
  number_scored x → string_scored y →
  ∃ m, sorted_by_score l = inl (TypeError m).
Proof.
  intros Hl Hx Hy (k & n & Hk & Hn) [s Hs]. unfold sorted_by_score.
  destruct (score_keys_has_score l Hl) as (keys & -> & Hkeys). simpl.
  destruct (Forall2_elem_of_l _ _ _ _ Hkeys Hx) as (kx & Hkx & Hgx).
  destruct (Forall2_elem_of_l _ _ _ _ Hkeys Hy) as (ky & Hky & Hgy).
  rewrite Hk in Hgx. injection Hgx as ->. rewrite Hs in Hgy.
  injection Hgy as <-.
  rewrite bool_decide_eq_false_2.
  - rewrite (mapM_as_number_None keys s Hky).
    rewrite (mapM_as_string_None keys kx n Hkx Hn). by eexists.
  - assert (x ≠ y) as Hne.
    { intros ->. rewrite Hs in Hk. injection Hk as <-. done. }
    pose proof (two_elements l x y Hx Hy Hne). lia.
Qed.

Lemma sorted_by_score_mixed_witness :
  ∃ m, sorted_by_score
         [scored "A" 80 "bien";
          JObj [("company_name", JStr "B"); ("score", JStr "95")]]
       = inl (TypeError m).
Proof.
  apply (sorted_by_score_mixed _ (scored "A" 80 "bien")
           (JObj [("company_name", JStr "B"); ("score", JStr "95")])).
  - repeat constructor; by eexists.
  - apply list_elem_of_here.
  - apply list_elem_of_further, list_elem_of_here.
  - by eexists _, _.
  - by eexists.
Defined.

Lemma String_ltb_asym (a b : string) :
  String.ltb a b = true → String.ltb b a = false.
Proof.
  unfold String.ltb. rewrite (String.compare_antisym a b).
  by destruct (String.compare b a).
Qed.

Lemma score_keys_str (l : list JSON) :
  Forall string_scored l →
  score_keys l = inr (JStr <$> (text_score <$> l)).
Proof.
  induction 1 as [|x l [s Hs] _ IH]; [done|].
  simpl. unfold text_score at 1. by rewrite Hs, IH.
Qed.

Lemma mapM_as_string_JStr (ss : list string) :
  mapM as_string (JStr <$> ss) = Some ss.
Proof.
  apply mapM_Some. induction ss; [constructor|]. rewrite fmap_cons.
  by constructor.
Qed.

(** X14. Scores that are all strings are ordered as text, not as numbers:
    the final sort returns a permutation of the results in which no result
    is followed by one whose score is a greater string. *)
Theorem sorted_by_score_strings (l : list JSON) :
  Forall string_scored l →
  ∃ l', sorted_by_score l = inr l'
        ∧ l' ≡ₚ l
        ∧ Sorted (λ x y, String.ltb (text_score x) (text_score y) = false) l'.
Proof.
  intros Hl. unfold sorted_by_score. rewrite (score_keys_str l Hl). simpl.
  case_bool_decide as Hlen.
  { exists l. split; [done|]. split; [done|].
    destruct l as [|x [|y l]]; simpl in Hlen; [repeat constructor..|lia]. }
  destruct l as [|x l]; [simpl in Hlen; lia|].
  rewrite (mapM_as_number_None _ (text_score x))
    by (rewrite !fmap_cons; apply list_elem_of_here).
  rewrite mapM_as_string_JStr, zip_fmap_l.
  set (d := (λ x, (text_score x, x)) <$> x :: l).
  assert (sort_desc String.ltb d ≡ₚ d) as Hperm by apply sort_desc_Permutation.
  eexists. split; [done|]. split.
  - rewrite Hperm. unfold d. rewrite <-list_fmap_compose.
    rewrite <-(list_fmap_id (x :: l)) at 2.
    by rewrite (list_fmap_ext _ id (x :: l)).
  - assert (Forall (λ p, p.1 = text_score p.2) (sort_desc String.ltb d)) as Hd.
    { rewrite Hperm. unfold d. apply Forall_fmap, Forall_true. done. }
    assert (Sorted (not_less String.ltb) (sort_desc String.ltb d)) as Hsorted
      by apply (sort_desc_Sorted String.ltb String_ltb_asym).
    clear Hperm. revert Hd Hsorted.
    generalize (sort_desc String.ltb d). intros sd Hd Hsorted.
    induction Hsorted as [|p sd Hsd IH Hp]; [constructor|].
    apply Forall_cons in Hd as [Hp1 Hd]. rewrite fmap_cons.
    constructor; [by apply IH|].
    destruct Hp as [|q sd' Hpq]; [constructor|]. rewrite fmap_cons.
    constructor. apply Forall_cons in Hd as [Hq1 _].
    unfold not_less in Hpq. by rewrite <-Hp1, <-Hq1.
Qed.

Lemma sorted_by_score_strings_witness :
  sorted_by_score
    [JObj [("company_name", JStr "A"); ("score", JStr "100")];
     JObj [("company_name", JStr "B"); ("score", JStr "95")]]
  = inr [JObj [("company_name", JStr "B"); ("score", JStr "95")];
         JObj [("company_name", JStr "A"); ("score", JStr "100")]].
Proof.
  destruct (sorted_by_score_strings
              [JObj [("company_name", JStr "A"); ("score", JStr "100")];
               JObj [("company_name", JStr "B"); ("score", JStr "95")]])
    as (l' & Hl' & _).
  - repeat constructor; by eexists.
  - rewrite Hl'. by vm_compute in Hl' |- *.
Defined.

(** ** Traces *)

Lemma filter_Forall_not {A} (P : A → Prop) `{∀ x, Decision (P x)} (l : list A) :
  Forall (λ x, ¬ P x) l → filter P l = [].
Proof.
  induction 1 as [|x l Hx _ IH]; [done|].
  by rewrite filter_cons, decide_False.
Qed.

Section TraceInvariant.
Context (P : event → Prop).

Lemma bind_Forall {A B} (m : M A) (f : A → M B) :
  Forall P m.1 → (∀ a, Forall P (f a).1) → Forall P (m ≫= f).1.
Proof.
  destruct m as [t [e|a]]; intros Ht Hf; [done|].
  rewrite bind_inr. simpl. apply Forall_app. by split.
Qed.

Lemma try_except_Forall {A} (body : M A) (handler : exn → M A) :
  Forall P body.1 → (∀ e, Forall P (handler e).1) →
  Forall P (try_except body handler).1.
Proof.
  destruct body as [t [e|a]]; simpl; [|done]. intros Ht Hh.
  specialize (Hh e). destruct (handler e) as [t' r]. simpl in *.
  apply Forall_app. by split.
Qed.

Lemma for_each_Forall {A} (body : A → M unit) (l : list A) :
  (∀ x, Forall P (body x).1) → Forall P (for_each body l).1.
Proof.
  intros Hb. induction l as [|x l IH]; simpl; [constructor|].
  apply bind_Forall; [done|]. by intros [].
Qed.

Lemma emit_Forall (ev : event) : P ev → Forall P (emit ev).1.
Proof. by repeat constructor. Qed.

Lemma lift_Forall {A} (r : exn + A) : Forall P (lift r).1.
Proof. constructor. Qed.

End TraceInvariant.

Section RunEvents.
Variable create : nat → string → string → string → exn + string.
Variable json_loads : string → exn + JSON.
Variable args : Args.
Variable P : event → Prop.
Hypothesis P_info : ∀ m, P (LogInfo m).
Hypothesis P_sleep : P (Sleep 2).
Hypothesis P_write : ∀ c, P (WriteFile (output_file (output_format args)) c).

Lemma save_results_Forall (results : list JSON) :
  Forall P (save_results results (output_format args)).1.
Proof.
  pose proof P_write as Hw. unfold save_results.
  destruct (output_format args); simpl.
  - destruct (forallb _ _); simpl; by repeat constructor.
  - destruct (writerows results) as [rows [e|]]; simpl; by repeat constructor.
Qed.

Lemma rate_limiting_Forall (n i : nat) :
  Forall P (rate_limiting args n i).1.
Proof.
  unfold rate_limiting, rate_limit_handler.
  repeat case_bool_decide; simpl; by repeat constructor.
Qed.

(** The events of a batch: its start, the events of its analysis, and
    events of the sink, the log and the pacing. *)
Lemma process_batch_events (n i : nat) (st : loop_state) :
  ∃ t',
    (process_batch create json_loads args n i st).1
    = LogInfo (ProcessingBatch (batch_num st) (length (current_batch st)))
      :: (analyze_batch create json_loads (current_batch st) (batch_num st)
            (job args) (model args)).1 ++ t'
    ∧ Forall P t'.
Proof.
  unfold process_batch.
  destruct (analyze_batch _ _ _ _ _ _) as [ta [e|result]].
  { exists []. simpl. by rewrite app_nil_r. }
  rewrite (bind_inr ta result). eexists. split; [reflexivity|].
  apply bind_Forall.
  - destruct (truthy result); [|constructor].
    apply bind_Forall; [apply lift_Forall|]. intros analyses.
    apply bind_Forall; [apply lift_Forall|]. intros items.
    apply bind_Forall; [apply save_results_Forall|]. intros [].
    apply bind_Forall; [by apply emit_Forall|]. intros []. constructor.
  - intros all. apply bind_Forall; [apply rate_limiting_Forall|].
    intros []. constructor.
Qed.

Lemma process_batches_Forall (n : nat) (bs : list (list Entity))
    (st : loop_state) (d : nat) :
  (∀ b k, Forall P (analyze_batch create json_loads b k (job args)
                      (model args)).1) →
  Forall P (process_batches create json_loads args n st d bs).1.
Proof.
  intros Ha. revert st d. induction bs as [|b bs IH]; intros st d; simpl.
  { constructor. }
  apply bind_Forall; [|by intros st'].
  destruct (process_batch_events n (d + length b - 1)
              {| current_batch := b; all_results := all_results st;
                 batch_num := batch_num st |}) as (t' & -> & Ht').
  constructor; [done|]. apply Forall_app. split; [apply Ha|done].
Qed.

Lemma log_result_Forall (result : JSON) : Forall P (log_result result).1.
Proof.
  unfold log_result.
  repeat (apply bind_Forall; [apply lift_Forall || by apply emit_Forall|];
          intros ?).
  by apply emit_Forall.
Qed.

Lemma sort_and_display_Forall (all : list JSON) :
  Forall P (sort_and_display args all).1.
Proof.
  unfold sort_and_display.
  apply bind_Forall; [apply lift_Forall|]. intros sorted.
  apply bind_Forall; [apply save_results_Forall|]. intros [].
  apply bind_Forall; [by apply emit_Forall|]. intros [].
  apply for_each_Forall, log_result_Forall.
Qed.

End RunEvents.

Section MainEvents.
Variable create : nat → string → string → string → exn + string.
Variable json_loads : string → exn + JSON.
Variable args : Args.
Variable P : event → Prop.
Hypothesis P_info : ∀ m, P (LogInfo m).
Hypothesis P_sleep : P (Sleep 2).
Hypothesis P_write : ∀ c, P (WriteFile (output_file (output_format args)) c).
Hypothesis P_request :
  ∀ user, P (Request (model args) (system_message (job args)) user (7 # 10)).
Hypothesis P_batch_error : ∀ k e, P (LogError (ErrorInBatch k e)).

Lemma analyze_batch_Forall (b : list Entity) (k : nat) :
  Forall P (analyze_batch create json_loads b k (job args) (model args)).1.
Proof.
  rewrite analyze_batch_eq. cbv zeta.
  repeat case_match; simpl; by repeat constructor.
Qed.

Lemma process_companies_Forall (l : list Entity) :
  Forall P (process_companies create json_loads args l).1.
Proof.
  rewrite process_companies_batches.
  apply process_batches_Forall; auto using analyze_batch_Forall.
Qed.

(** The events of the [try] block of [main]. *)
Lemma main_try_Forall (file : exn + list Entity) :
  Forall P
    (companies ← lift file;
     emit (LogInfo (Loaded (length companies)));;
     st ← process_companies create json_loads args companies;
     sort_and_display args (all_results st)).1.
Proof.
  apply bind_Forall; [apply lift_Forall|]. intros l.
  apply bind_Forall; [by apply emit_Forall|]. intros [].
  apply bind_Forall; [apply process_companies_Forall|]. intros st.
  by apply sort_and_display_Forall.
Qed.

End MainEvents.

Lemma main_started create json_loads (api_key : option string) (args : Args)
    (file : exn + list Entity) :
  startup_ok api_key args →
  main create json_loads api_key args file
  = try_except
      (companies ← lift file;
       emit (LogInfo (Loaded (length companies)));;
       st ← process_companies create json_loads args companies;
       sort_and_display args (all_results st))
      (λ e, emit (LogError (ErrorInMain e));; raise e).
Proof.
  intros [(key & -> & Hk) [Hj1 Hj2]]. unfold main, validate_job_title.
  rewrite (bool_decide_eq_false_2 (Some key = None)) by done.
  rewrite (bool_decide_eq_false_2 (Some key = Some "")) by congruence.
  rewrite !bool_decide_eq_false_2 by done. cbn [orb].
  by rewrite bind_lift_inr.
Qed.

(** X15. A run that fails one of the startup checks (no API key, an empty
    one, an empty job title or the placeholder) raises [ValueError] and
    leaves no trace: nothing is logged, requested or written. Every other
    run logs something. *)
Theorem main_startup create json_loads (api_key : option string)
    (args : Args) (file : exn + list Entity) :
  (¬ startup_ok api_key args →
   ∃ m, main create json_loads api_key args file = ([], inl (ValueError m)))
  ∧ (startup_ok api_key args →
     (main create json_loads api_key args file).1 ≠ []).
Proof.
  split.
  - intros Hno. unfold main, validate_job_title.
    destruct (bool_decide (api_key = None) || bool_decide (api_key = Some ""))
      eqn:Hkey; [by eexists|].
    destruct (bool_decide (job args = "")
              || bool_decide (job args = "define-your-job-here")) eqn:Hjob;
      [by eexists|].
    destruct Hno. apply orb_false_iff in Hkey as [Hk1 Hk2].
    apply orb_false_iff in Hjob as [Hj1 Hj2].
    apply bool_decide_eq_false in Hk1, Hk2, Hj1, Hj2.
    split; [|done]. destruct api_key as [key|]; [|done].
    exists key. split; [done|]. congruence.
  - intros Hok. rewrite main_started by done.
    destruct file as [e|l]; [done|]. rewrite bind_lift_inr.
    unfold try_except. destruct (_ ≫= _) as [t [e|[]]] eqn:Hb.
    + simpl. by destruct t.
    + apply bind_inr_inv in Hb as (t0 & [] & t' & [= <-] & _ & ->). done.
Qed.

(** X16. Past the startup checks, a failure of the run (the input file
    cannot be loaded, a batch or the final step raises) is logged once, as
    the last line of the run, and raised again unchanged; a run that
    completes logs no such line. *)
Theorem main_error_logged create json_loads (api_key : option string)
    (args : Args) (file : exn + list Entity) (t : list event) (r : exn + ()) :
  startup_ok api_key args →
  main create json_loads api_key args file = (t, r) →
  match r with
  | inl e =>
      ∃ t', t = t' ++ [LogError (ErrorInMain e)] ∧ filter is_main_error t' = []
  | inr _ => filter is_main_error t = []
  end.
Proof.
  intros Hok. rewrite main_started by done.
  assert (Forall (λ ev, ¬ is_main_error ev)
            (companies ← lift file;
             emit (LogInfo (Loaded (length companies)));;
             st ← process_companies create json_loads args companies;
             sort_and_display args (all_results st)).1) as Hbody
    by (apply main_try_Forall; intros; simpl; tauto).
  unfold try_except. destruct (_ ≫= _) as [tb [e|[]]]; simpl in Hbody.
  - intros [= <- <-]. exists tb. split; [done|].
    by apply filter_Forall_not.
  - intros [= <- <-]. by apply filter_Forall_not.
Qed.

Lemma main_error_logged_witness :
  ∃ t',
    [LogError (ErrorInMain (JSONDecodeError "Expecting value"))]
    = t' ++ [LogError (ErrorInMain (JSONDecodeError "Expecting value"))]
    ∧ filter is_main_error t' = [].
Proof.
  refine (main_error_logged client_down stub_json_loads (Some "sk")
            (args_of 2 json) (inl (JSONDecodeError "Expecting value"))
            _ (inl (JSONDecodeError "Expecting value")) _ eq_refl).
  split; [by exists "sk"|done].
Defined.

(** X17. Whatever the service answers and however the run ends, a run
    writes no file but the output file of the configured format, sends its
    requests to the configured model, as the recruiter of the configured
    job and at temperature 0.7, and sleeps for 2 seconds at a time. *)
Theorem main_within_config create json_loads (api_key : option string)
    (args : Args) (file : exn + list Entity) :
  Forall (within_config args) (main create json_loads api_key args file).1.
Proof.
  unfold main. destruct (_ || _); [constructor|].
  apply bind_Forall; [apply lift_Forall|]. intros _.
  apply try_except_Forall.
  - by apply main_try_Forall.
  - intros e. by repeat constructor.
Qed.

(** X18. With an empty list of companies, a run sends no request: it
    writes the empty document to the output file and logs the title of the
    summary, and completes. *)
Theorem main_no_companies create json_loads (api_key : option string)
    (args : Args) :
  startup_ok api_key args →
  main create json_loads api_key args (inr [])
  = ([LogInfo (Loaded 0);
      WriteFile (output_file (output_format args))
        (document (output_format args) []);
      LogInfo (ResultsSaved (output_file (output_format args)));
      LogInfo TopCompanies],
     inr ()).
Proof.
  intros Hok. rewrite main_started by done.
  unfold sort_and_display, save_results. by destruct (output_format args).
Qed.

Lemma main_no_companies_witness :
  main client_down stub_json_loads (Some "sk") (args_of 30 csv) (inr [])
  = ([LogInfo (Loaded 0);
      WriteFile "sorted_company_scores.csv"
        (CsvDoc [[JStr "company_name"; JStr "score"; JStr "explanation"]]);
      LogInfo (ResultsSaved "sorted_company_scores.csv");
      LogInfo TopCompanies],
     inr ()).
Proof.
  apply (main_no_companies client_down stub_json_loads (Some "sk")
           (args_of 30 csv)).
  split; [by exists "sk"|done].
Defined.

(** ** Requests *)

Section Requests.
Variable create : nat → string → string → string → exn + string.
Variable json_loads : string → exn + JSON.
Variable args : Args.

Lemma analyze_batch_requests (b : list Entity) (k : nat) :
  filter is_request
    (analyze_batch create json_loads b k (job args) (model args)).1
  = match company_texts 0 b with
    | inl _ => []
    | inr texts =>
        [Request (model args) (system_message (job args))
           (prompt (job args) (join (newline +:+ newline) texts)) (7 # 10)]
    end.
Proof. rewrite analyze_batch_eq. cbv zeta. by repeat case_match. Qed.

(** A batch sends the request of its analysis and no other. *)
Lemma process_batch_requests (n i : nat) (st : loop_state) :
  filter is_request (process_batch create json_loads args n i st).1
  = filter is_request
      (analyze_batch create json_loads (current_batch st) (batch_num st)
         (job args) (model args)).1.
Proof.
  destruct (process_batch_events create json_loads args
              (λ ev, ¬ is_request ev)) with (n := n) (i := i) (st := st)
    as (t' & -> & Ht'); [intros; simpl; tauto..|].
  rewrite filter_cons, filter_app, (filter_Forall_not _ t' Ht'), app_nil_r.
  done.
Qed.

Lemma process_batch_requests_le (n i : nat) (st : loop_state) :
  (length (filter is_request (process_batch create json_loads args n i st).1)
   ≤ 1)%nat.
Proof.
  rewrite process_batch_requests, analyze_batch_requests.
  case_match; simpl; lia.
Qed.

Lemma process_batch_request_of (n i : nat) (st st' : loop_state)
    (t : list event) :
  process_batch create json_loads args n i st = (t, inr st') →
  ∃ ev, filter is_request t = [ev] ∧ request_of args ev (current_batch st).
Proof.
  intros H. pose proof (process_batch_requests n i st) as Hr.
  rewrite H, analyze_batch_requests in Hr. simpl in Hr.
  destruct (company_texts 0 (current_batch st)) as [e|texts] eqn:Hct.
  - unfold process_batch in H. rewrite analyze_batch_eq, Hct in H. done.
  - eexists. split; [done|]. by exists texts.
Qed.

Lemma process_batches_requests (n : nat) (bs : list (list Entity))
    (st st' : loop_state) (d : nat) (t : list event) :
  process_batches create json_loads args n st d bs = (t, inr st') →
  Forall2 (request_of args) (filter is_request t) bs.
Proof.
  revert st d t. induction bs as [|b bs IH]; intros st d t H.
  { injection H as <- _. constructor. }
  simpl in H. apply bind_inr_inv in H as (t1 & st1 & t2 & H1 & H & ->).
  apply process_batch_request_of in H1 as (ev & Hev & Hreq).
  rewrite filter_app, Hev. simpl. constructor; [done|]. by eapply IH.
Qed.

(** A truthy answer whose [analyses] cannot be read stops the batch with
    the exception of the reading. *)
Lemma process_batch_bad_answer (n i : nat) (st : loop_state)
    (t : list event) (result : JSON) (e : exn) :
  analyze_batch create json_loads (current_batch st) (batch_num st)
    (job args) (model args) = (t, inr result) →
  truthy result = true →
  getitem result "analyses" ≫= iterate = inl e →
  (process_batch create json_loads args n i st).2 = inl e.
Proof.
  intros Ha Ht He. unfold process_batch.
  rewrite Ha, (bind_inr t result), Ht.
  destruct (getitem result "analyses") as [e'|analyses]; simpl in He.
  - by injection He as ->.
  - by rewrite bind_lift_inr, He.
Qed.

Lemma process_batches_bad_answer (n : nat) (bs : list (list Entity))
    (st : loop_state) (d k : nat) (b : list Entity)
    (t : list event) (result : JSON) (e : exn) :
  bs !! k = Some b →
  analyze_batch create json_loads b (batch_num st + k) (job args) (model args)
    = (t, inr result) →
  truthy result = true →
  getitem result "analyses" ≫= iterate = inl e →
  ∃ t' e',
    process_batches create json_loads args n st d bs = (t', inl e')
    ∧ (length (filter is_request t') ≤ S k)%nat.
Proof.
  revert st d k. induction bs as [|b0 bs IH]; intros st d k Hb Ha Ht He.
  { done. }
  simpl.
  pose proof (process_batch_requests_le n (d + length b0 - 1)
                {| current_batch := b0; all_results := all_results st;
                   batch_num := batch_num st |}) as Hle.
  destruct k as [|k]; simpl in Hb.
  - injection Hb as ->. rewrite Nat.add_0_r in Ha.
    pose proof (process_batch_bad_answer n (d + length b - 1)
                  {| current_batch := b; all_results := all_results st;
                     batch_num := batch_num st |} t result e Ha Ht He) as Hp.
    destruct (process_batch _ _ _ _ _ _) as [t1 r1]. simpl in Hp, Hle.
    subst r1. by exists t1, e.
  - destruct (process_batch _ _ _ _ _ _) as [t1 [e1|st1]] eqn:Hp.
    { exists t1, e1. split; [done|]. simpl in Hle. lia. }
    apply process_batch_inr in Hp as [_ Hbn]. simpl in Hbn.
    destruct (IH st1 (d + length b0)%nat k Hb) as (t2 & e2 & H2 & Hle2);
      [|done..|].
    { rewrite Hbn. by replace (S (batch_num st) + k)%nat
                       with (batch_num st + S k)%nat by lia. }
    rewrite bind_inr, H2. simpl. exists (t1 ++ t2), e2. split; [done|].
    rewrite filter_app, length_app. simpl in Hle. lia.
Qed.

End Requests.

(** X19. In a run of the loop that completes, one request is sent per
    batch, in the order of the batches, and the prompt of each lists the
    companies of its batch, numbered from 1. *)
Theorem process_companies_requests create json_loads (args : Args)
    (l : list Entity) (t : list event) (st : loop_state) :
  process_companies create json_loads args l = (t, inr st) →
  Forall2 (request_of args) (filter is_request t)
    (batches_of (batch_size args) l).
Proof.
  rewrite process_companies_batches. apply process_batches_requests.
Qed.

Lemma process_companies_requests_witness :
  Forall2 (request_of (args_of 2 json))
    (filter is_request
       (process_companies client_mixed stub_json_loads (args_of 2 json)
          five_companies).1)
    (batches_of 2 five_companies).
Proof.
  destruct (process_companies client_mixed stub_json_loads (args_of 2 json)
              five_companies) as [t [e|st]] eqn:H.
  - by vm_compute in H.
  - exact (process_companies_requests client_mixed stub_json_loads
             (args_of 2 json) five_companies t st H).
Defined.

(** X20. When the answer for a batch is truthy but its [analyses] cannot be
    read (no such key, or a value that is not iterable), the loop does not
    go on to the next batch: it raises, and no request is sent for a later
    batch. *)
Theorem process_companies_bad_answer create json_loads (args : Args)
    (l b : list Entity) (k : nat) (t : list event) (result : JSON) (e : exn) :
  batches_of (batch_size args) l !! k = Some b →
  analyze_batch create json_loads b (S k) (job args) (model args)
    = (t, inr result) →
  truthy result = true →
  getitem result "analyses" ≫= iterate = inl e →
  ∃ t' e',
    process_companies create json_loads args l = (t', inl e')
    ∧ (length (filter is_request t') ≤ S k)%nat.
Proof.
  rewrite process_companies_batches. intros Hb Ha Ht He.
  by eapply process_batches_bad_answer.
Qed.

Lemma process_companies_bad_answer_witness :
  ∃ t' e',
    process_companies (client_canned text_results) stub_json_loads
      (args_of 2 json) five_companies = (t', inl e')
    ∧ (length (filter is_request t') ≤ 1)%nat.
Proof.
  eapply (process_companies_bad_answer (client_canned text_results)
            stub_json_loads (args_of 2 json) five_companies
            [company "A" "a"; company "B" "b"] 0 _
            (JObj [("results", JArr [])]) (KeyError "analyses")).
  - by vm_compute.
  - by vm_compute.
  - done.
  - done.
Defined.

(** ** The final step *)

Lemma log_result_inr (result : JSON) (t : list event) :
  log_result result = (t, inr ()) → t = summary result ∧ summarised result.
Proof.
  unfold log_result, summary, summarised, field, fieldnames.
  destruct (getitem result "company_name") as [e|v1] eqn:H1; [done|].
  destruct (getitem result "score") as [e|v2] eqn:H2; [done|].
  destruct (getitem result "explanation") as [e|v3] eqn:H3; [done|].
  intros [= <-]. split; [done|].
  repeat (constructor; [by eexists|]). constructor.
Qed.

Lemma for_each_log_result_inr (l : list JSON) (t : list event) :
  for_each log_result l = (t, inr ()) →
  t = l ≫= summary ∧ Forall summarised l.
Proof.
  revert t. induction l as [|x l IH]; intros t H.
  { by injection H as <-. }
  cbn [for_each] in H.
  apply bind_inr_inv in H as (t1 & [] & t2 & H1 & H2 & ->).
  apply log_result_inr in H1 as [-> Hx]. apply IH in H2 as [-> Hl].
  split; [done|by constructor].
Qed.

(** X21. When the final step completes, its events are: the sorted results
    written to the output file, the line that says so, the title of the
    summary, and the name, score and explanation of each of the first ten
    sorted results (of all of them when there are fewer), in order; each of
    these results has the three fields. *)
Theorem sort_and_display_summary (args : Args) (all : list JSON)
    (t : list event) :
  sort_and_display args all = (t, inr ()) →
  ∃ sorted_results,
    sorted_by_score all = inr sorted_results
    ∧ t = WriteFile (output_file (output_format args))
            (document (output_format args) sorted_results)
          :: LogInfo (ResultsSaved (output_file (output_format args)))
          :: LogInfo TopCompanies
          :: (take 10 sorted_results ≫= summary)
    ∧ Forall summarised (take 10 sorted_results).
Proof.
  unfold sort_and_display. intros H.
  apply bind_inr_inv in H as (t0 & sorted & t1 & [= <- Hsort] & H & ->).
  apply bind_inr_inv in H as (ts & [] & t2 & Hs & H & ->).
  apply bind_inr_inv in H as (t3 & [] & t4 & [= <-] & H & ->).
  apply save_results_inr in Hs as [-> Hst].
  apply for_each_log_result_inr in H as [-> Hsum].
  exists sorted. by rewrite (document_whole _ _ Hst).
Qed.

Lemma sort_and_display_summary_witness :
  (sort_and_display (args_of 2 json) three_scored).1
  = [WriteFile "sorted_company_scores.json"
       (JsonDoc [scored "B" 95 "top"; scored "A" 80 "bien";
                 scored "C" 80 "bien aussi"]);
     LogInfo (ResultsSaved "sorted_company_scores.json");
     LogInfo TopCompanies;
     LogInfo (TopCompany (JStr "B")); LogInfo (TopScore (JNum 95));
     LogInfo (TopExplanation (JStr "top"));
     LogInfo (TopCompany (JStr "A")); LogInfo (TopScore (JNum 80));
     LogInfo (TopExplanation (JStr "bien"));
     LogInfo (TopCompany (JStr "C")); LogInfo (TopScore (JNum 80));
     LogInfo (TopExplanation (JStr "bien aussi"))].
Proof.
  destruct (sort_and_display_summary (args_of 2 json) three_scored _ eq_refl)
    as (sorted & Hsorted & Ht & _).
  injection Hsorted as <-. exact Ht.
Defined.

Lemma persisted_write_first (name : string) (c : file_content)
    (rest : list event) :
  filter is_write rest = [] → persisted name (WriteFile name c :: rest) = Some c.
Proof.
  intros Hrest. change (WriteFile ?n ?c :: rest) with ([WriteFile n c] ++ rest).
  rewrite persisted_app, (persisted_no_write _ rest) by done. simpl.
  by rewrite decide_True.
Qed.

(** The final step starts by writing the sorted results, and writes
    nothing else. *)
Lemma sort_and_display_events (args : Args) (all sorted_results : list JSON) :
  sorted_by_score all = inr sorted_results →
  ∃ rest,
    (sort_and_display args all).1
    = WriteFile (output_file (output_format args))
        (document (output_format args) sorted_results) :: rest
    ∧ filter is_write rest = [].
Proof.
  intros Hsort. unfold sort_and_display. rewrite Hsort, bind_lift_inr.
  destruct (save_results_events sorted_results (output_format args))
    as (rest & Hsave & Hrest).
  destruct (save_results sorted_results (output_format args))
    as [ts [e|[]]]; simpl in Hsave; subst ts.
  { by exists rest. }
  rewrite bind_inr. unfold emit at 1. rewrite bind_inr.
  exists (rest ++ LogInfo TopCompanies
                  :: (for_each log_result (take 10 sorted_results)).1).
  split; [done|].
  rewrite filter_app, Hrest. simpl. rewrite filter_cons. simpl.
  apply for_each_log_result_no_write.
Qed.

(** X22. The final step writes the output file before it logs the
    summary: whenever the sort returns, the file holds the document of the
    sorted results, however the step ends; and the step raises when one of
    the first ten sorted results lacks one of the three fields. *)
Theorem sort_and_display_writes_first (args : Args)
    (all sorted_results : list JSON) :
  sorted_by_score all = inr sorted_results →
  persisted (output_file (output_format args)) (sort_and_display args all).1
  = Some (document (output_format args) sorted_results)
  ∧ (¬ Forall summarised (take 10 sorted_results) →
     ∃ e, (sort_and_display args all).2 = inl e).
Proof.
  intros Hsort. split.
  - destruct (sort_and_display_events args all sorted_results Hsort)
      as (rest & -> & Hrest).
    by apply persisted_write_first.
  - intros Hno.
    destruct (sort_and_display args all) as [t [e|[]]] eqn:H; [by eexists|].
    unfold sort_and_display in H. rewrite Hsort, bind_lift_inr in H.
    apply bind_inr_inv in H as (ts & [] & t2 & _ & H & _).
    apply bind_inr_inv in H as (t3 & [] & t4 & _ & H & _).
    destruct Hno. by apply for_each_log_result_inr in H as [_ ?].
Qed.

Lemma sort_and_display_writes_first_witness :
  persisted "sorted_company_scores.json"
    (sort_and_display (args_of 2 json)
       [scored "A" 80 "bien";
        JObj [("company_name", JStr "B"); ("score", JNum 95)]]).1
  = Some (JsonDoc [JObj [("company_name", JStr "B"); ("score", JNum 95)];
                   scored "A" 80 "bien"])
  ∧ (sort_and_display (args_of 2 json)
       [scored "A" 80 "bien";
        JObj [("company_name", JStr "B"); ("score", JNum 95)]]).2
    = inl (KeyError "explanation").
Proof.
  destruct (sort_and_display_writes_first (args_of 2 json)
              [scored "A" 80 "bien";
               JObj [("company_name", JStr "B"); ("score", JNum 95)]]
              _ eq_refl) as [Hfile _].
  split; [exact Hfile|by vm_compute].
Defined.
